(** * Separator: witnessed-interval tracking and goal-post reconciliation

    A shallow embedding of [src/Extensions/separator.js] (XKit's Separator
    extension) together with the properties of its interval set, its cursor
    validity check and its [reconcile] routine.

    Conventions of the embedding:
    - a JavaScript number that holds an integer is a [Z]; [Number.isSafeInteger]
      is the range check on it.  Values that are not integers (strings, [NaN],
      fractions) are outside the types used here;
    - [null] is [None] in an [option Z];
    - an interval, the two-element array [[lower, upper]], is a pair [Z * Z];
    - the [Map] of adjacency hints is an association list in insertion order;
    - [XKit.storage] for the extension is a [gmap] from keys to stored values;
    - code that mutates its arguments returns the new value of what it mutates;
      code that may [throw] returns a [completion]. *)

From stdpp Require Import base numbers list sorting strings pretty gmap.

Local Open Scope Z_scope.

(** ** Generic helper functions *)

Definition MAX_SAFE_INTEGER : Z := 2 ^ 53 - 1.

(** [Number.isSafeInteger] on an integer-valued number. *)
Definition isSafeInteger (value : Z) : bool :=
  (- MAX_SAFE_INTEGER <=? value) && (value <=? MAX_SAFE_INTEGER).

Definition isSafePositiveInteger (value : Z) : bool :=
  isSafeInteger value && (0 <? value).

(** An interval is the array [[lowerEndpoint, upperEndpoint]]. *)
Definition interval : Type := Z * Z.

(** [prev <? lower] where [prev] starts out as [Number.NEGATIVE_INFINITY]
    ([None]). *)
Definition ltFromPrev (prevUpperEndpoint : option Z) (lowerEndpoint : Z) : bool :=
  match prevUpperEndpoint with
  | None => true
  | Some p => p <? lowerEndpoint
  end.

(** The [for] loop of [areSortedDisjointSafeIntegerIntervals], with the
    loop variable [prevUpperEndpoint] as an argument. *)
Fixpoint areSortedFrom (prevUpperEndpoint : option Z) (intervals : list interval) : bool :=
  match intervals with
  | [] => true
  | (lowerEndpoint, upperEndpoint) :: rest =>
      if negb (isSafeInteger lowerEndpoint && isSafeInteger upperEndpoint) then false
      else if negb (ltFromPrev prevUpperEndpoint lowerEndpoint && (lowerEndpoint <? upperEndpoint)) then false
      else areSortedFrom (Some upperEndpoint) rest
  end.

Definition areSortedDisjointSafeIntegerIntervals (intervals : list interval) : bool :=
  areSortedFrom None intervals.

(** The loop variables of [addToSortedDisjointSafeIntegerIntervals] when its
    [for] loop ends. *)
Record spliceState : Type := SpliceState {
  spliceStart : nat;
  spliceDeleteCount : nat;
  preservedEndpoints : nat;
  newLowerEndpoint : Z;
  newUpperEndpoint : Z;
}.

(** The [for] loop of [addToSortedDisjointSafeIntegerIntervals]: [continue]
    and falling through go on with the rest, [break] stops. *)
Fixpoint addLoop (intervals : list interval)
    (start deleteCount preserved : nat) (newLower newUpper : Z) : spliceState :=
  match intervals with
  | [] => SpliceState start deleteCount preserved newLower newUpper
  | (oldLowerEndpoint, oldUpperEndpoint) :: rest =>
      if oldUpperEndpoint <? newLower then
        addLoop rest (S start) deleteCount preserved newLower newUpper
      else if newUpper <? oldLowerEndpoint then
        SpliceState start deleteCount preserved newLower newUpper
      else
        let hitLower := (oldLowerEndpoint <=? newLower) && (newLower <=? oldUpperEndpoint) in
        let hitUpper := (oldLowerEndpoint <=? newUpper) && (newUpper <=? oldUpperEndpoint) in
        let newLower' := if hitLower then oldLowerEndpoint else newLower in
        let preserved' := if hitLower then S preserved else preserved in
        let newUpper' := if hitUpper then oldUpperEndpoint else newUpper in
        let preserved'' := if hitUpper then S preserved' else preserved' in
        addLoop rest start (S deleteCount) preserved'' newLower' newUpper'
  end.

(** [Array.prototype.splice(start, deleteCount, item)] for counts that are
    natural numbers: JavaScript clamps both to the array, as [take] and
    [drop] do. *)
Definition splice {A : Type} (start deleteCount : nat) (item : A) (l : list A) : list A :=
  take start l ++ item :: drop (start + deleteCount) l.

(** Returns [updated] and the array [intervals] as the call leaves it. *)
Definition addToSortedDisjointSafeIntegerIntervals
    (intervals : list interval) (new : interval) : bool * list interval :=
  let s := addLoop intervals 0 0 0 new.1 new.2 in
  let updated := negb ((spliceDeleteCount s =? 1)%nat && (preservedEndpoints s =? 2)%nat) in
  if updated then
    (true, splice (spliceStart s) (spliceDeleteCount s)
                  (newLowerEndpoint s, newUpperEndpoint s) intervals)
  else (false, intervals).

(** The [for] loop of [indexOfIntervalContainingValue], with the loop
    variable [index] as an argument. *)
Fixpoint indexLoop (intervals : list interval) (value : Z) (index : Z) : Z :=
  match intervals with
  | [] => -1
  | (lowerEndpoint, upperEndpoint) :: rest =>
      if upperEndpoint <? value then indexLoop rest value (index + 1)
      else if value <? lowerEndpoint then -1
      else index
  end.

Definition indexOfIntervalContainingValue (intervals : list interval) (value : Z) : Z :=
  indexLoop intervals value 0.

(** [v] lies in one of the closed intervals of [l]. *)
Definition covers (l : list interval) (v : Z) : Prop :=
  exists lo hi, (lo, hi) ∈ l /\ lo <= v <= hi.

(** ** Cursors and their validity (from [initContext]) *)

(** The [Map] of adjacency hints (timestamp to post ID), as the list of its
    entries in insertion order. *)
Definition hintMap : Type := list (Z * Z).

(** [Map.prototype.get]; [None] is [undefined]. *)
Fixpoint mapGet (m : hintMap) (key : Z) : option Z :=
  match m with
  | [] => None
  | (k, v) :: rest => if k =? key then Some v else mapGet rest key
  end.

(** [Map.prototype.set]: an existing key keeps its place, a new one goes
    last. *)
Fixpoint mapSet (m : hintMap) (key value : Z) : hintMap :=
  match m with
  | [] => [(key, value)]
  | (k, v) :: rest =>
      if k =? key then (k, value) :: rest else (k, v) :: mapSet rest key value
  end.

(** [new Map(entries)]. *)
Definition newMap (entries : list (Z * Z)) : hintMap :=
  fold_left (fun m e => mapSet m e.1 e.2) entries [].

(** The [cursors] object.  Dashboard cursors have no [adjacencyHints]
    property; nothing reads or writes it there, and the embedding keeps the
    empty map in its place. *)
Record Cursors : Type := MkCursors {
  goalPostId : option Z;
  witnessedPostIds : list interval;
  adjacencyHints : hintMap;
}.

Definition validCursors (goalPostId : option Z) (witnessedPostIds : list interval) : bool :=
  match goalPostId with
  | Some g =>
      if isSafePositiveInteger g then
        areSortedDisjointSafeIntegerIntervals ((0, g) :: witnessedPostIds)
      else false
  | None => (length witnessedPostIds =? 0)%nat
  end.

(** The body of the loop over the hints in [validTaggedCursors]: [false]
    where the loop returns [false], [true] where it goes on. *)
Definition validHint (witnessedPostIds : list interval) (hint : Z * Z) : bool :=
  let '(timestamp, postId) := hint in
  if negb (isSafePositiveInteger timestamp && isSafePositiveInteger postId) then false
  else if indexOfIntervalContainingValue witnessedPostIds postId =? -1 then false
  else true.

Definition validTaggedCursors (goalPostId : option Z) (witnessedPostIds : list interval)
    (adjacencyHints : hintMap) : bool :=
  if negb (validCursors goalPostId witnessedPostIds) then false
  else if (length witnessedPostIds =? 0)%nat then (length adjacencyHints =? 0)%nat
  else forallb (validHint witnessedPostIds) adjacencyHints.

(** ** Storage and completions *)

(** What [JSON.stringify] writes under a cursors key: the array
    [[goalPostId, witnessedPostIds]] of the dashboard or
    [[goalPostId, witnessedPostIds, rawAdjacencyHints]] of a tagged view. *)
Inductive stored : Type :=
  | StoredCursors (goalPostId : option Z) (witnessedPostIds : list interval)
  | StoredTaggedCursors (goalPostId : option Z) (witnessedPostIds : list interval)
      (rawAdjacencyHints : list (Z * Z)).

(** The keys of [XKit.storage] in the namespace ["separator"]. *)
Abbreviation storage := (gmap string stored).

(** How a call ends: it returns a value or throws an [Error]. *)
Inductive completion (A : Type) : Type :=
  | Normal (value : A)
  | Throw (message : string).
Arguments Normal {A} value.
Arguments Throw {A} message.

(** ** The context adapter ([initContext]) *)

(** What [initContext] reads from the page: [XKit.interface.where()], and
    the numbers in the URL.  A number read from the URL is [None] when
    [Number(...)] of the text is not an integer.  [encodedTag] is [btoa(tag)]
    for the text of the tag element (without that element [initContext]
    throws, and there is no context to speak of). *)
Inductive location : Type :=
  | Dashboard (endless : bool) (pageNumber signedPostId : option Z)
  | Tagged (endless : bool) (encodedTag : string) (pageTimestamp : option Z)
  | Elsewhere.

(** The object [initContext] returns when [shouldContinue] is true.
    [updateAdjacencyHints] reads the [before] parameter of the
    [#next_page_link] element each time it runs; that reading is its first
    argument ([None]: no such element, or not an integer). *)
Record context : Type := MkContext {
  mayDefer : bool;
  isFirstPage : bool;
  augmentWithAdjacencyHints : Cursors -> interval -> interval;
  updateAdjacencyHints : option Z -> Cursors -> list Z -> Cursors;
  loadCursors : storage -> completion Cursors;
  saveCursors : Cursors -> storage -> completion unit * storage;
}.

Definition identityHints (cursors : Cursors) (witnessed : interval) : interval := witnessed.

Definition optSafePositive (value : option Z) : bool :=
  match value with
  | Some v => isSafePositiveInteger v
  | None => false
  end.

Definition dashboardKey : string := "cursors:dashboard".

Definition dashboardLoadCursors (st : storage) : completion Cursors :=
  let '(goalPostId, witnessedPostIds) :=
    match st !! dashboardKey with
    | None => (None, [])
    | Some (StoredCursors g w) => (g, w)
    | Some (StoredTaggedCursors g w _) => (g, w)
    end in
  if negb (validCursors goalPostId witnessedPostIds) then Throw "Loaded invalid cursors"
  else Normal (MkCursors goalPostId witnessedPostIds []).

Definition dashboardSaveCursors (cursors : Cursors) (st : storage) : completion unit * storage :=
  if negb (validCursors (goalPostId cursors) (witnessedPostIds cursors)) then
    (Throw "Attempted to save invalid cursors", st)
  else
    (Normal tt,
     <[dashboardKey := StoredCursors (goalPostId cursors) (witnessedPostIds cursors)]> st).

Definition dashboardContext (endless : bool) (pageNumber signedPostId : option Z) : context :=
  let firstPage :=
    negb (match pageNumber with
          | Some n => isSafePositiveInteger n && (1 <? n)
          | None => false
          end) in
  let augment :=
    if firstPage then identityHints
    else match signedPostId with
         | Some signed =>
             if isSafeInteger signed && negb (signed =? 0) then
               let postId := Z.abs signed in
               if 0 <? signed then
                 fun cursors '(oldestWitnessedPostId, newestWitnessedPostId) =>
                   if negb (indexOfIntervalContainingValue (witnessedPostIds cursors) postId =? -1)
                   then (oldestWitnessedPostId, postId)
                   else (oldestWitnessedPostId, newestWitnessedPostId)
               else
                 fun cursors '(oldestWitnessedPostId, newestWitnessedPostId) =>
                   if negb (indexOfIntervalContainingValue (witnessedPostIds cursors) postId =? -1)
                   then (postId, newestWitnessedPostId)
                   else (oldestWitnessedPostId, newestWitnessedPostId)
             else identityHints
         | None => identityHints
         end in
  {| mayDefer := endless;
     isFirstPage := firstPage;
     augmentWithAdjacencyHints := augment;
     updateAdjacencyHints := fun _ cursors _ => cursors;
     loadCursors := dashboardLoadCursors;
     saveCursors := dashboardSaveCursors |}.

Definition taggedKey (encodedTag : string) : string := "cursors:tagged:" +:+ encodedTag.

(** [postIds[postIds.length - 1]] is [last postIds]; [reconcile] only passes
    a non-empty [postIds].  On an empty one JavaScript would store
    [undefined], which is no post ID: the embedding leaves the map alone. *)
Definition taggedUpdateAdjacencyHints (nextPageTimestamp : option Z)
    (cursors : Cursors) (postIds : list Z) : Cursors :=
  if (length (witnessedPostIds cursors) =? 0)%nat then
    MkCursors (goalPostId cursors) (witnessedPostIds cursors) []
  else
    match nextPageTimestamp, last postIds with
    | Some ts, Some oldestWitnessedPostId =>
        if isSafePositiveInteger ts then
          MkCursors (goalPostId cursors) (witnessedPostIds cursors)
                    (mapSet (adjacencyHints cursors) ts oldestWitnessedPostId)
        else cursors
    | _, _ => cursors
    end.

Definition taggedLoadCursors (storageKey : string) (st : storage) : completion Cursors :=
  let '(goalPostId, witnessedPostIds, rawAdjacencyHints) :=
    match st !! storageKey with
    | None => (None, [], [])
    | Some (StoredCursors g w) => (g, w, [])
    | Some (StoredTaggedCursors g w raw) => (g, w, raw)
    end in
  let adjacencyHints := newMap rawAdjacencyHints in
  if negb (validTaggedCursors goalPostId witnessedPostIds adjacencyHints) then
    Throw "Loaded invalid cursors"
  else Normal (MkCursors goalPostId witnessedPostIds adjacencyHints).

Definition taggedSaveCursors (storageKey : string) (cursors : Cursors) (st : storage)
    : completion unit * storage :=
  if negb (validTaggedCursors (goalPostId cursors) (witnessedPostIds cursors)
                              (adjacencyHints cursors)) then
    (Throw "Attempted to save invalid cursors", st)
  else
    (Normal tt,
     <[storageKey := StoredTaggedCursors (goalPostId cursors) (witnessedPostIds cursors)
                                         (adjacencyHints cursors)]> st).

Definition taggedContext (endless : bool) (encodedTag : string) (pageTimestamp : option Z)
    : context :=
  let storageKey := taggedKey encodedTag in
  let laterPage := optSafePositive pageTimestamp in
  let augment :=
    match pageTimestamp with
    | Some ts =>
        if isSafePositiveInteger ts then
          fun cursors '(oldestWitnessedPostId, newestWitnessedPostId) =>
            match mapGet (adjacencyHints cursors) ts with
            | Some postId =>
                if negb (indexOfIntervalContainingValue (witnessedPostIds cursors) postId =? -1)
                then (oldestWitnessedPostId, postId)
                else (oldestWitnessedPostId, newestWitnessedPostId)
            | None => (oldestWitnessedPostId, newestWitnessedPostId)
            end
        else identityHints
    | None => identityHints
    end in
  {| mayDefer := endless;
     isFirstPage := negb laterPage;
     augmentWithAdjacencyHints := augment;
     updateAdjacencyHints := taggedUpdateAdjacencyHints;
     loadCursors := taggedLoadCursors storageKey;
     saveCursors := taggedSaveCursors storageKey |}.

(** [None] is the object [{"shouldContinue": false}]. *)
Definition initContext (where_ : location) : option context :=
  match where_ with
  | Dashboard endless pageNumber signedPostId =>
      Some (dashboardContext endless pageNumber signedPostId)
  | Tagged endless encodedTag pageTimestamp =>
      Some (taggedContext endless encodedTag pageTimestamp)
  | Elsewhere => None
  end.

(** ** Enumerating the posts on the page *)

(** [postId >= prevPostId] where [prevPostId] starts out as
    [Number.POSITIVE_INFINITY] ([None]). *)
Definition geFromPrev (postId : Z) (prevPostId : option Z) : bool :=
  match prevPostId with
  | None => false
  | Some p => p <=? postId
  end.

(** The loop of [enumerateDashboardPostIds] over [Number(postElem.dataset.id)]
    of the post elements it does not skip; the result is what it pushes. *)
Fixpoint enumerateFrom (prevPostId : option Z) (elemIds : list Z) : completion (list Z) :=
  match elemIds with
  | [] => Normal []
  | postId :: rest =>
      if negb (isSafePositiveInteger postId) then
        Throw "Failed to extract valid ID from post element"
      else if geFromPrev postId prevPostId then
        Throw "Encountered post that violates the expectation that posts must be ordered by strictly decreasing IDs"
      else
        match enumerateFrom (Some postId) rest with
        | Normal postIds => Normal (postId :: postIds)
        | Throw message => Throw message
        end
  end.

Definition enumerateDashboardPostIds (elemIds : list Z) : completion (list Z) :=
  enumerateFrom None elemIds.

(** ** The reconciliation engine *)

Definition RECONCILE_ABORT : Z := 0.
Definition RECONCILE_DEFER : Z := -1.

(** [saveCursors(cursors); return value;] *)
Definition saveAndReturn (saveCursors : Cursors -> storage -> completion unit * storage)
    (cursors : Cursors) (value : Z) (st : storage) : completion Z * Cursors * storage :=
  match saveCursors cursors st with
  | (Normal _, st') => (Normal value, cursors, st')
  | (Throw message, st') => (Throw message, cursors, st')
  end.

(** The loop that finds the best goal post: [ids] are
    [postIds[length - 2]], ..., [postIds[0]]. *)
Fixpoint bestLoop (ids : list Z) (goal : Z) (bestGoalPostId : Z) : Z :=
  match ids with
  | [] => bestGoalPostId
  | postId :: rest =>
      if goal <? postId then bestGoalPostId else bestLoop rest goal postId
  end.

(** [reconcile] gets here with a non-empty [postIds] only; on an empty
    one there is no post ID to start from. *)
Definition bestGoalPost (postIds : list Z) (goal : Z) : Z :=
  match reverse postIds with
  | [] => 0
  | oldest :: newer => bestLoop newer goal oldest
  end.

(** [reconcile] from the check of the observed interval on (the part after
    the [if (initial)] block), for the goal post [goal] and the interval
    [[oldestWitnessedPostId, newestWitnessedPostId]]. *)
Definition reconcileWitnessed (cursors : Cursors) (postIds : list Z) (goal : Z)
    (witnessed : interval)
    (updateAdjacencyHints : Cursors -> list Z -> Cursors)
    (saveCursors : Cursors -> storage -> completion unit * storage)
    (st : storage) : completion Z * Cursors * storage :=
  let '(oldestWitnessedPostId, newestWitnessedPostId) := witnessed in
  if newestWitnessedPostId <=? oldestWitnessedPostId then
    (Throw "Invariants broken", cursors, st)
  else
    let '(cursorsUpdated, intervals) :=
      addToSortedDisjointSafeIntegerIntervals (witnessedPostIds cursors)
        (oldestWitnessedPostId, newestWitnessedPostId) in
    let cursors := MkCursors (goalPostId cursors) intervals (adjacencyHints cursors) in
    let index := indexOfIntervalContainingValue intervals goal in
    if index =? -1 then
      if cursorsUpdated then
        let cursors := updateAdjacencyHints cursors postIds in
        saveAndReturn saveCursors cursors RECONCILE_DEFER st
      else (Normal RECONCILE_DEFER, cursors, st)
    else if negb (cursorsUpdated && (index =? 0)) then
      (Throw "Invariants broken", cursors, st)
    else
      let bestGoalPostId := bestGoalPost postIds goal in
      match intervals with
      | [] => (Throw "TypeError", cursors, st)
      | (_, newGoalPostId) :: remaining =>
          let cursors := MkCursors (Some newGoalPostId) remaining (adjacencyHints cursors) in
          let cursors := updateAdjacencyHints cursors postIds in
          saveAndReturn saveCursors cursors bestGoalPostId st
      end.

(** [reconcile]: the completion, the [cursors] object as the call leaves it,
    and the storage. *)
Definition reconcile (cursors : Cursors) (postIds : list Z) (initial isFirstPage : bool)
    (augmentWithAdjacencyHints : Cursors -> interval -> interval)
    (updateAdjacencyHints : Cursors -> list Z -> Cursors)
    (saveCursors : Cursors -> storage -> completion unit * storage)
    (st : storage) : completion Z * Cursors * storage :=
  match postIds with
  | [] => (Normal RECONCILE_ABORT, cursors, st)
  | newestWitnessedPostId :: _ =>
      if initial && bool_decide (goalPostId cursors = None) then
        let cursors :=
          MkCursors (Some newestWitnessedPostId) (witnessedPostIds cursors)
                    (adjacencyHints cursors) in
        saveAndReturn saveCursors cursors newestWitnessedPostId st
      else
        match goalPostId cursors with
        | None => (Throw "Invariants broken", cursors, st)
        | Some goal =>
            if negb (isSafePositiveInteger goal) then (Throw "Invariants broken", cursors, st)
            else
              let oldestWitnessedPostId := default newestWitnessedPostId (last postIds) in
              if initial then
                if newestWitnessedPostId <? goal then
                  if isFirstPage then
                    let cursors :=
                      MkCursors (Some newestWitnessedPostId) [] (adjacencyHints cursors) in
                    let cursors := updateAdjacencyHints cursors postIds in
                    saveAndReturn saveCursors cursors newestWitnessedPostId st
                  else (Normal RECONCILE_ABORT, cursors, st)
                else
                  reconcileWitnessed cursors postIds goal
                    (augmentWithAdjacencyHints cursors
                       (oldestWitnessedPostId, newestWitnessedPostId))
                    updateAdjacencyHints saveCursors st
              else
                reconcileWitnessed cursors postIds goal
                  (oldestWitnessedPostId, newestWitnessedPostId)
                  updateAdjacencyHints saveCursors st
        end
  end.

(** The two calls of [reconcile] in [run]: the context supplies the page
    position and the three functions; [nextPageTimestamp] is what
    [updateAdjacencyHints] finds on the page during the call. *)
Definition runReconcile (ctx : context) (nextPageTimestamp : option Z)
    (cursors : Cursors) (postIds : list Z) (initial : bool) (st : storage)
    : completion Z * Cursors * storage :=
  reconcile cursors postIds initial (isFirstPage ctx)
    (augmentWithAdjacencyHints ctx)
    (updateAdjacencyHints ctx nextPageTimestamp)
    (saveCursors ctx) st.

(** ** Upgrading the storage *)

(** A value held under a key of [XKit.storage], as far as [upgradeStorage]
    tells values apart: a number with an integer value, or any other value
    (a number that is no integer, a string, ...), on which
    [Number.isSafeInteger] is false. *)
Inductive storedValue : Type :=
  | IntegerValue (n : Z)
  | OtherValue.

(** The namespace ["separator"] of [XKit.storage] as a whole: the values
    under the keys ["version"] and ["last_post"] ([None]: no such key)
    beside the cursors keys, which all start with ["cursors:"] and so are
    neither of the two. *)
Record extensionStorage : Type := MkExtensionStorage {
  storedVersion : option storedValue;
  storedLastPost : option storedValue;
  storedCursors : storage;
}.

Definition LATEST_STORAGE_VERSION : Z := 2.

(** [upgradeStorage]: [XKit.storage.get("separator", "version", 1)] gives
    the default only when there is no such key; a stored value that is no
    integer fails [isSafePositiveInteger], for the version as for
    ["last_post"]. *)
Definition upgradeStorage (s : extensionStorage) : completion unit * extensionStorage :=
  match default (IntegerValue 1) (storedVersion s) with
  | OtherValue => (Throw "Unexpected storage version", s)
  | IntegerValue storageVersion =>
      if negb (isSafePositiveInteger storageVersion
               && (storageVersion <=? LATEST_STORAGE_VERSION)) then
        (Throw "Unexpected storage version", s)
      else if storageVersion <? LATEST_STORAGE_VERSION then
        let s :=
          if storageVersion <=? 1 then
            let lastPost := storedLastPost s in
            let s := MkExtensionStorage (storedVersion s) None (storedCursors s) in
            match lastPost with
            | Some (IntegerValue p) =>
                if isSafePositiveInteger p then
                  MkExtensionStorage (storedVersion s) (storedLastPost s)
                    (<[dashboardKey := StoredCursors (Some p) []]> (storedCursors s))
                else s
            | _ => s
            end
          else s in
        (Normal tt,
         MkExtensionStorage (Some (IntegerValue LATEST_STORAGE_VERSION))
           (storedLastPost s) (storedCursors s))
      else (Normal tt, s)
  end.

(** ** The separator line in the page *)

(** The children of the [#posts] element, as far as the functions below tell
    them apart: a [.post_container] with its [data-pageable] attribute, the
    [li] with the id [xkit-separator-line], or anything else. *)
Inductive postsChild : Type :=
  | PostContainer (pageable : string)
  | SeparatorLine (bold : bool)
  | OtherChild.

(** The part of the document these functions read and change: the children
    of [#posts] in document order, and whether an element with the id
    [xkit-separator-line] exists anywhere else ([getElementById] and
    [querySelectorAll] search the whole document). *)
Record document : Type := MkDocument {
  postsChildren : list postsChild;
  lineOutsidePosts : bool
}.

Definition isSeparatorLine (c : postsChild) : bool :=
  match c with SeparatorLine _ => true | _ => false end.

(** The selector [.post_container[data-pageable="post_${postId}"]]; the
    template prints a safe positive integer in decimal. *)
Definition isContainerOfPost (postId : Z) (c : postsChild) : bool :=
  match c with
  | PostContainer pageable => bool_decide (pageable = "post_" +:+ pretty postId)
  | _ => false
  end.

(** [document.getElementById("xkit-separator-line") !== null]. *)
Definition separatorExists (d : document) : bool :=
  existsb isSeparatorLine (postsChildren d) || lineOutsidePosts d.

(** [querySelector] takes the first match in document order, and
    [post.parentNode.insertBefore(line, post)] puts the line right before it;
    [None] when [querySelector] returns [null]. *)
Fixpoint insertBeforePost (line : postsChild) (postId : Z) (l : list postsChild)
    : option (list postsChild) :=
  match l with
  | [] => None
  | c :: rest =>
      if isContainerOfPost postId c then Some (line :: c :: rest)
      else option_map (cons c) (insertBeforePost line postId rest)
  end.

Definition insertSeparatorBeforePost (drawBoldLine : bool) (postId : Z) (d : document)
    : completion unit * document :=
  if separatorExists d then (Throw "Separator already exists", d)
  else
    match insertBeforePost (SeparatorLine drawBoldLine) postId (postsChildren d) with
    | None => (Throw "Failed to locate post element", d)
    | Some children => (Normal tt, MkDocument children (lineOutsidePosts d))
    end.

(** What [destroy] does to the separator line: every element matching
    [#xkit-separator-line] is removed.  (Its other effects, on the controls,
    the post listener and the style sheet, are outside this model.) *)
Definition destroy (d : document) : document :=
  MkDocument (filter (fun c => isSeparatorLine c = false) (postsChildren d)) false.

(** ** Vocabulary of the statements *)

(** Two pages share their cursors: both are the dashboard, or both are the
    tagged view of the same tag. *)
Definition sameContext (where1 where2 : location) : Prop :=
  match where1, where2 with
  | Dashboard _ _ _, Dashboard _ _ _ => True
  | Tagged _ tag1 _, Tagged _ tag2 _ => tag1 = tag2
  | _, _ => False
  end.

(** The unit segment from [x] to [x + 1] lies in one of the intervals of
    [l]. *)
Definition coversSegment (l : list interval) (x : Z) : Prop :=
  exists lo hi, (lo, hi) ∈ l /\ lo <= x < hi.

(** What [reconcile] relies on in the [saveCursors] it is given: it throws
    and leaves the storage alone, or it returns after writing a cursor that
    passed [validCursors]. *)
Definition checkedSave (save : Cursors -> storage -> completion unit * storage) : Prop :=
  forall c st,
    (exists message, save c st = (Throw message, st)) \/
    (exists st', save c st = (Normal tt, st') /\
                 validCursors (goalPostId c) (witnessedPostIds c) = true).

(** The validity check that [loadCursors] and [saveCursors] of the context
    of a page apply. *)
Definition validFor (where_ : location) (c : Cursors) : bool :=
  match where_ with
  | Dashboard _ _ _ => validCursors (goalPostId c) (witnessedPostIds c)
  | Tagged _ _ _ =>
      validTaggedCursors (goalPostId c) (witnessedPostIds c) (adjacencyHints c)
  | Elsewhere => false
  end.

(** The interval [reconcile] merges into the witnessed intervals: from the
    oldest to the newest post ID of the batch, passed through
    [augmentWithAdjacencyHints] on the initial pass. *)
Definition observedInterval (ctx : context) (c : Cursors) (postIds : list Z)
    (initial : bool) : interval :=
  let observed := (default 0 (last postIds), default 0 (head postIds)) in
  if initial then augmentWithAdjacencyHints ctx c observed else observed.

(** A call that started with the storage [st] leaves it as it was, or it
    returns normally after a successful [save] of the cursors it ends
    with. *)
Definition storageOutcome (save : Cursors -> storage -> completion unit * storage)
    (st : storage) (res : completion Z * Cursors * storage) : Prop :=
  res.2 = st \/
  (exists v, res.1.1 = Normal v) /\
  save res.1.2 st = (Normal tt, res.2) /\
  validCursors (goalPostId res.1.2) (witnessedPostIds res.1.2) = true.

(** ** Tests of the embedding *)

Example add_test1 :
  addToSortedDisjointSafeIntegerIntervals [(1,2);(4,5);(7,8)] (2,7) = (true, [(1,8)]).
Proof. reflexivity. Qed.
Example add_test2 :
  addToSortedDisjointSafeIntegerIntervals [(1,3);(7,8)] (4,6) = (true, [(1,3);(4,6);(7,8)]).
Proof. reflexivity. Qed.
Example add_test3 :
  addToSortedDisjointSafeIntegerIntervals [(1,3);(7,18)] (8,9) = (false, [(1,3);(7,18)]).
Proof. reflexivity. Qed.
Example idx_test1 : indexOfIntervalContainingValue [(1,3);(7,18)] 7 = 1.
Proof. reflexivity. Qed.
Example first_visit (st : storage) :
  runReconcile (dashboardContext true None None) None (MkCursors None [] []) [50;49;48] true st
  = (Normal 50, MkCursors (Some 50) [] [], <[dashboardKey := StoredCursors (Some 50) []]> st).
Proof. reflexivity. Qed.

(** ** The interval set *)

Lemma isSafeInteger_spec v :
  isSafeInteger v = true <-> - MAX_SAFE_INTEGER <= v <= MAX_SAFE_INTEGER.
Proof. unfold isSafeInteger. rewrite andb_true_iff, !Z.leb_le. tauto. Qed.

Lemma isSafePositiveInteger_spec v :
  isSafePositiveInteger v = true <-> 0 < v <= MAX_SAFE_INTEGER.
Proof.
  unfold isSafePositiveInteger. rewrite andb_true_iff, isSafeInteger_spec, Z.ltb_lt.
  unfold MAX_SAFE_INTEGER. lia.
Qed.

Lemma areSortedFrom_cons prev lo hi rest :
  areSortedFrom prev ((lo, hi) :: rest) = true <->
  isSafeInteger lo = true /\ isSafeInteger hi = true /\
  ltFromPrev prev lo = true /\ lo < hi /\ areSortedFrom (Some hi) rest = true.
Proof.
  simpl.
  destruct (isSafeInteger lo), (isSafeInteger hi), (ltFromPrev prev lo),
    (Z.ltb_spec lo hi); simpl; intuition (congruence || lia).
Qed.

Lemma areSortedFrom_lower p q l :
  areSortedFrom (Some p) l = true -> q <= p -> areSortedFrom (Some q) l = true.
Proof.
  destruct l as [|[lo hi] rest]; [done|].
  rewrite !areSortedFrom_cons. simpl. rewrite !Z.ltb_lt. intuition lia.
Qed.

Lemma areSortedFrom_restart prev q a b rest :
  areSortedFrom prev ((a, b) :: rest) = true -> q < a ->
  areSortedFrom (Some q) ((a, b) :: rest) = true.
Proof.
  rewrite !areSortedFrom_cons. simpl. rewrite Z.ltb_lt. intuition.
Qed.

Lemma areSortedFrom_None prev l :
  areSortedFrom prev l = true -> areSortedFrom None l = true.
Proof.
  destruct l as [|[lo hi] rest]; [done|].
  rewrite !areSortedFrom_cons. simpl. intuition.
Qed.

Lemma areSortedFrom_above p l lo hi :
  areSortedFrom (Some p) l = true -> (lo, hi) ∈ l -> p < lo /\ lo < hi.
Proof.
  revert p. induction l as [|[a b] rest IH]; intros p Hs Hin.
  - by apply elem_of_nil in Hin.
  - apply areSortedFrom_cons in Hs as (_ & _ & Hp & Hab & Hrest).
    simpl in Hp. apply Z.ltb_lt in Hp.
    apply elem_of_cons in Hin as [Heq | Hin].
    + inversion Heq; subst. lia.
    + specialize (IH _ Hrest Hin). lia.
Qed.

Lemma areSortedFrom_safe prev l lo hi :
  areSortedFrom prev l = true -> (lo, hi) ∈ l ->
  isSafeInteger lo = true /\ isSafeInteger hi = true /\ lo < hi.
Proof.
  revert prev. induction l as [|[a b] rest IH]; intros prev Hs Hin.
  - by apply elem_of_nil in Hin.
  - apply areSortedFrom_cons in Hs as (Ha & Hb & _ & Hab & Hrest).
    apply elem_of_cons in Hin as [Heq | Hin].
    + by inversion Heq; subst.
    + by apply (IH (Some b)).
Qed.

Lemma areSortedFrom_app prev pre lo hi post :
  areSortedFrom prev (pre ++ (lo, hi) :: post) = true ->
  areSortedFrom (Some hi) post = true /\
  (forall a b, (a, b) ∈ pre -> b < lo).
Proof.
  revert prev. induction pre as [|[a b] pre IH]; intros prev Hs; simpl in Hs.
  - apply areSortedFrom_cons in Hs as (_ & _ & _ & _ & Hrest).
    split; [done|]. intros a b Hin. by apply elem_of_nil in Hin.
  - change (areSortedFrom prev ((a, b) :: pre ++ (lo, hi) :: post) = true) in Hs.
    apply areSortedFrom_cons in Hs as (_ & _ & _ & Hab & Hrest).
    destruct (IH _ Hrest) as [Hpost Hpre]. split; [done|].
    intros a' b' Hin. apply elem_of_cons in Hin as [Heq | Hin].
    + inversion Heq; subst.
      assert ((lo, hi) ∈ pre ++ (lo, hi) :: post) as Hmem.
      { apply elem_of_app. right. apply elem_of_cons. by left. }
      pose proof (areSortedFrom_above _ _ _ _ Hrest Hmem). lia.
    + by apply (Hpre a' b').
Qed.

(** Two intervals of a sorted set that meet are the same interval. *)
Lemma areSortedFrom_disjoint prev l a b c d :
  areSortedFrom prev l = true -> (a, b) ∈ l -> (c, d) ∈ l ->
  a <= d -> c <= b -> (a, b) = (c, d).
Proof.
  revert prev. induction l as [|[x y] rest IH]; intros prev Hs Hab Hcd Had Hcb.
  - by apply elem_of_nil in Hab.
  - apply areSortedFrom_cons in Hs as (_ & _ & _ & Hxy & Hrest).
    apply elem_of_cons in Hab as [Heq1|Hin1], Hcd as [Heq2|Hin2].
    + congruence.
    + inversion Heq1; subst. pose proof (areSortedFrom_above _ _ _ _ Hrest Hin2). lia.
    + inversion Heq2; subst. pose proof (areSortedFrom_above _ _ _ _ Hrest Hin1). lia.
    + by apply (IH (Some y)).
Qed.

Lemma splice_app {A : Type} (pre mid post : list A) (item : A) :
  splice (length pre) (length mid) item (pre ++ mid ++ post) = pre ++ item :: post.
Proof.
  unfold splice. rewrite take_app_length. f_equal. f_equal.
  rewrite drop_app_ge by lia.
  replace (length pre + length mid - length pre)%nat with (length mid) by lia.
  by rewrite drop_app_length.
Qed.

(** Once an interval has been merged, the loop keeps the lower endpoint and
    either merges or stops: [p] is the upper endpoint of the interval the
    loop has just left. *)
Lemma addLoop_merging l : forall p start del pres nlo nhi,
  areSortedFrom (Some p) l = true -> nlo <= p -> p <= nhi ->
  exists mid post pres' nhi',
    l = mid ++ post /\
    addLoop l start del pres nlo nhi
      = SpliceState start (del + length mid) pres' nlo nhi' /\
    nhi <= nhi' /\
    areSortedFrom (Some nhi') post = true /\
    (forall a b, (a, b) ∈ mid -> p < a /\ b <= nhi') /\
    (nhi' = nhi \/ exists a, (a, nhi') ∈ mid /\ a <= nhi) /\
    (isSafeInteger nhi = true -> isSafeInteger nhi' = true).
Proof.
  induction l as [|[a b] rest IH]; intros p start del pres nlo nhi Hs Hlo Hhi.
  - exists [], [], pres, nhi. simpl. rewrite Nat.add_0_r.
    split_and!; try done; try lia; try (by left).
    intros ? ? Hin. by apply elem_of_nil in Hin.
  - pose proof Hs as Hs'.
    apply areSortedFrom_cons in Hs' as (Ha & Hb & Hp & Hab & Hrest).
    simpl in Hp. apply Z.ltb_lt in Hp. simpl.
    destruct (Z.ltb_spec b nlo) as [?|_]; [lia|].
    destruct (Z.ltb_spec nhi a) as [Hbrk|Hov].
    + exists [], ((a, b) :: rest), pres, nhi. simpl. rewrite Nat.add_0_r.
      split_and!; try done; try lia; try (by left).
      * exact (areSortedFrom_restart _ _ _ _ _ Hs Hbrk).
      * intros ? ? Hin. by apply elem_of_nil in Hin.
    + destruct (Z.leb_spec a nlo) as [?|_]; [lia|]. simpl.
      destruct (Z.leb_spec a nhi) as [_|?]; [|lia]. simpl.
      destruct (Z.leb_spec nhi b) as [Hin|Hout].
      * destruct (IH b start (S del) (S pres) nlo b Hrest) as
          (mid & post & pres' & nhi' & -> & Heq & Hge & Hpost & Hmid & Hlast & Hsafe);
          [lia|lia|].
        exists ((a, b) :: mid), post, pres', nhi'.
        rewrite Heq. simpl. split_and!; try done; try lia.
        -- f_equal. lia.
        -- intros a0 b0 [Heq'|Hin']%elem_of_cons.
           ++ inversion Heq'; subst. lia.
           ++ destruct (Hmid _ _ Hin'). lia.
        -- right. destruct Hlast as [->|(a' & Hin' & Hle)].
           ++ exists a. split; [apply elem_of_cons; by left|lia].
           ++ destruct (Hmid _ _ Hin'). lia.
        -- intros _. by apply Hsafe.
      * destruct (IH b start (S del) pres nlo nhi Hrest) as
          (mid & post & pres' & nhi' & -> & Heq & Hge & Hpost & Hmid & Hlast & Hsafe);
          [lia|lia|].
        exists ((a, b) :: mid), post, pres', nhi'.
        rewrite Heq. simpl. split_and!; try done; try lia.
        -- f_equal. lia.
        -- intros a0 b0 [Heq'|Hin']%elem_of_cons.
           ++ inversion Heq'; subst. lia.
           ++ destruct (Hmid _ _ Hin'). lia.
        -- destruct Hlast as [->|(a' & Hin' & Hle)]; [by left|].
           right. exists a'. split; [apply elem_of_cons; by right|done].
Qed.

(** The whole loop on a sorted set: it skips the intervals [pre] below the
    new one, merges the run [mid] it meets, and stops before [post]. *)
Lemma addLoop_shape l : forall prev start nlo nhi,
  areSortedFrom prev l = true -> nlo < nhi ->
  exists pre mid post pres' nlo' nhi',
    l = pre ++ mid ++ post /\
    addLoop l start 0 0 nlo nhi
      = SpliceState (start + length pre) (length mid) pres' nlo' nhi' /\
    (forall a b, (a, b) ∈ pre -> b < nlo) /\
    nlo' <= nlo /\ nhi <= nhi' /\
    (forall a b, (a, b) ∈ mid -> nlo' <= a /\ b <= nhi') /\
    (nlo' = nlo \/ exists b, (nlo', b) ∈ mid /\ nlo <= b) /\
    (nhi' = nhi \/ exists a, (a, nhi') ∈ mid /\ a <= nhi) /\
    (isSafeInteger nlo = true -> isSafeInteger nhi = true ->
     ltFromPrev prev nlo = true ->
     areSortedFrom prev (pre ++ (nlo', nhi') :: post) = true).
Proof.
  induction l as [|[a b] rest IH]; intros prev start nlo nhi Hs Hlt.
  - exists [], [], [], 0%nat, nlo, nhi. simpl. rewrite Nat.add_0_r.
    split_and!; try done; try lia; try (by left);
      try (intros ? ? Hin; by apply elem_of_nil in Hin).
    intros Hslo Hshi Hprev. rewrite Hslo, Hshi, Hprev. simpl.
    by destruct (Z.ltb_spec nlo nhi); [|lia].
  - pose proof Hs as Hs'.
    apply areSortedFrom_cons in Hs' as (Ha & Hb & Hp & Hab & Hrest).
    cbn [addLoop].
    destruct (Z.ltb_spec b nlo) as [Hskip|Hnoskip].
    + destruct (IH (Some b) (S start) nlo nhi Hrest Hlt) as
        (pre & mid & post & pres' & nlo' & nhi' & -> & Heq & Hpre & Hle1 & Hle2
         & Hmid & Hfirst & Hlast & Hsorted).
      exists ((a, b) :: pre), mid, post, pres', nlo', nhi'.
      rewrite Heq. split_and!; try done; try lia.
      * simpl. f_equal. lia.
      * intros a0 b0 [Heq'|Hin']%elem_of_cons.
        -- inversion Heq'; subst. lia.
        -- by apply (Hpre a0 b0).
      * intros Hslo Hshi Hprev.
        change (areSortedFrom prev ((a, b) :: pre ++ (nlo', nhi') :: post) = true).
        apply areSortedFrom_cons. split_and!; try done.
        apply Hsorted; try done. simpl. by apply Z.ltb_lt.
    + destruct (Z.ltb_spec nhi a) as [Hbrk|Hov].
      * exists [], [], ((a, b) :: rest), 0%nat, nlo, nhi. simpl. rewrite Nat.add_0_r.
        split_and!; try done; try lia; try (by left);
          try (intros ? ? Hin; by apply elem_of_nil in Hin).
        intros Hslo Hshi Hprev.
        change (areSortedFrom prev ((nlo, nhi) :: (a, b) :: rest) = true).
        apply areSortedFrom_cons. split_and!; try done.
        exact (areSortedFrom_restart _ _ _ _ _ Hs Hbrk).
      * set (hl := (a <=? nlo) && (nlo <=? b)).
        set (hu := (a <=? nhi) && (nhi <=? b)).
        set (nlo1 := if hl then a else nlo).
        set (nhi1 := if hu then b else nhi).
        assert (nlo1 <= nlo /\ nlo1 <= b /\ (nlo1 = nlo \/ nlo1 = a) /\
                (isSafeInteger nlo = true -> isSafeInteger nlo1 = true) /\
                (nlo1 <= a \/ nlo1 = nlo /\ nlo < a)) as (Hl1 & Hl2 & Hl3 & Hl4 & Hl5).
        { subst nlo1 hl.
          destruct (Z.leb_spec a nlo), (Z.leb_spec nlo b); simpl;
            split_and!; try done; try lia; auto. }
        assert (nhi <= nhi1 /\ b <= nhi1 /\ (nhi1 = nhi \/ nhi1 = b) /\
                (isSafeInteger nhi = true -> isSafeInteger nhi1 = true))
          as (Hu1 & Hu2 & Hu3 & Hu4).
        { subst nhi1 hu.
          destruct (Z.leb_spec a nhi), (Z.leb_spec nhi b); simpl;
            split_and!; try done; try lia; auto. }
        destruct (addLoop_merging rest b start 1
                    (if hu then S (if hl then 1%nat else 0%nat)
                     else (if hl then 1%nat else 0%nat))
                    nlo1 nhi1 Hrest Hl2 Hu2) as
          (mid & post & pres' & nhi' & -> & Heq & Hge & Hpost & Hmid & Hlast & Hsafe).
        exists [], ((a, b) :: mid), post, pres', nlo1, nhi'.
        rewrite Heq. simpl. rewrite Nat.add_0_r.
        split_and!; try done; try lia.
        -- intros ? ? Hin; by apply elem_of_nil in Hin.
        -- intros a0 b0 [Heq'|Hin']%elem_of_cons.
           ++ inversion Heq'; subst a0 b0. lia.
           ++ destruct (Hmid _ _ Hin'). lia.
        -- destruct Hl3 as [Hl3|Hl3]; [by left|].
           right. exists b. split; [|lia]. apply elem_of_cons. left. by rewrite Hl3.
        -- destruct Hlast as [->|(a' & Hin' & Hle)].
           ++ destruct Hu3 as [Hu3|Hu3]; [by left|].
              right. exists a. split; [|lia]. apply elem_of_cons. left. by rewrite Hu3.
           ++ destruct (Hmid _ _ Hin').
              destruct Hu3 as [Hu3|Hu3].
              ** right. exists a'. split; [apply elem_of_cons; by right|lia].
              ** lia.
        -- intros Hslo Hshi Hprev.
           change (areSortedFrom prev ((nlo1, nhi') :: post) = true).
           apply areSortedFrom_cons. split_and!; auto; try lia.
           destruct Hl3 as [->| ->]; done.
Qed.

(** The two counters of the loop: every merged interval counts once, and it
    preserves at most two endpoints. *)
Lemma addLoop_counts l : forall start del pres nlo nhi,
  let s := addLoop l start del pres nlo nhi in
  (del <= spliceDeleteCount s)%nat /\
  (spliceDeleteCount s = del -> preservedEndpoints s = pres) /\
  (spliceDeleteCount s = S del -> preservedEndpoints s = S (S pres) ->
   exists a b, (a, b) ∈ l /\ a <= nlo /\ nhi <= b).
Proof.
  induction l as [|[a b] rest IH]; intros start del pres nlo nhi; cbn [addLoop].
  - simpl. split_and!; [lia|done|lia].
  - destruct (Z.ltb_spec b nlo) as [Hskip|Hnoskip].
    + destruct (IH (S start) del pres nlo nhi) as (H1 & H2 & H3).
      split_and!; [done|done|].
      intros Hd Hp. destruct (H3 Hd Hp) as (a' & b' & Hin & ?).
      exists a', b'. split; [apply elem_of_cons; by right|done].
    + destruct (Z.ltb_spec nhi a) as [Hbrk|Hov].
      * simpl. split_and!; [lia|done|lia].
      * set (hl := (a <=? nlo) && (nlo <=? b)).
        set (hu := (a <=? nhi) && (nhi <=? b)).
        destruct (IH start (S del)
                    (if hu then S (if hl then S pres else pres)
                     else (if hl then S pres else pres))
                    (if hl then a else nlo) (if hu then b else nhi))
          as (H1 & H2 & _).
        split_and!; [lia|lia|].
        intros Hd Hp. specialize (H2 Hd). rewrite H2 in Hp.
        exists a, b. split; [apply elem_of_cons; by left|].
        subst hl hu.
        destruct (Z.leb_spec a nlo), (Z.leb_spec nlo b), (Z.leb_spec a nhi),
          (Z.leb_spec nhi b); simpl in Hp; lia.
Qed.

(** An interval inside an interval of the set is met exactly once, with both
    endpoints preserved. *)
Lemma addLoop_inside l : forall prev start nlo nhi a b,
  areSortedFrom prev l = true -> (a, b) ∈ l -> a <= nlo -> nlo < nhi -> nhi <= b ->
  exists n, addLoop l start 0 0 nlo nhi = SpliceState n 1 2 a b.
Proof.
  induction l as [|[c d] rest IH]; intros prev start nlo nhi a b Hs Hin Ha Hlt Hb.
  - by apply elem_of_nil in Hin.
  - pose proof Hs as Hs'.
    apply areSortedFrom_cons in Hs' as (_ & _ & _ & Hcd & Hrest).
    cbn [addLoop].
    destruct (Z.ltb_spec d nlo) as [Hskip|Hnoskip].
    + apply elem_of_cons in Hin as [Heq|Hin]; [inversion Heq; subst; lia|].
      by apply (IH (Some d)).
    + assert (c = a /\ d = b) as [-> ->].
      { apply elem_of_cons in Hin as [Heq|Hin]; [by inversion Heq|].
        pose proof (areSortedFrom_above _ _ _ _ Hrest Hin). lia. }
      destruct (Z.ltb_spec nhi a); [lia|].
      destruct (Z.leb_spec a nlo); [|lia].
      destruct (Z.leb_spec nlo b); [|lia].
      destruct (Z.leb_spec a nhi); [|lia].
      destruct (Z.leb_spec nhi b); [|lia].
      simpl. exists start.
      destruct rest as [|[c' d'] rest']; [done|].
      apply areSortedFrom_cons in Hrest as (_ & _ & Hp & Hcd' & _).
      simpl in Hp. apply Z.ltb_lt in Hp. cbn [addLoop].
      destruct (Z.ltb_spec d' a); [lia|].
      by destruct (Z.ltb_spec b c'); [|lia].
Qed.

(** What [addToSortedDisjointSafeIntegerIntervals] does to a sorted set:
    the result is [pre ++ [merged] ++ post], or the set itself when nothing
    changes. *)
Lemma add_shape prev l lo hi :
  areSortedFrom prev l = true -> lo < hi ->
  exists pre mid post nlo nhi,
    l = pre ++ mid ++ post /\
    ((addToSortedDisjointSafeIntegerIntervals l (lo, hi)).2 = pre ++ (nlo, nhi) :: post) /\
    (forall a b, (a, b) ∈ pre -> b < lo) /\
    nlo <= lo /\ hi <= nhi /\
    (forall a b, (a, b) ∈ mid -> nlo <= a /\ b <= nhi) /\
    (nlo = lo \/ exists b, (nlo, b) ∈ mid /\ lo <= b) /\
    (nhi = hi \/ exists a, (a, nhi) ∈ mid /\ a <= hi) /\
    (isSafeInteger lo = true -> isSafeInteger hi = true ->
     ltFromPrev prev lo = true ->
     areSortedFrom prev (pre ++ (nlo, nhi) :: post) = true).
Proof.
  intros Hs Hlt.
  destruct (addLoop_shape l prev 0 lo hi Hs Hlt) as
    (pre & mid & post & pres' & nlo & nhi & Hl & Heq & Hpre & Hle1 & Hle2
     & Hmid & Hfirst & Hlast & Hsorted).
  exists pre, mid, post, nlo, nhi.
  split_and!; try done.
  unfold addToSortedDisjointSafeIntegerIntervals. cbn [fst snd].
  rewrite Heq. cbn [spliceStart spliceDeleteCount preservedEndpoints
                    newLowerEndpoint newUpperEndpoint].
  destruct (negb _) eqn:Hupd; cbn [snd].
  - rewrite Hl. apply splice_app.
  - apply negb_false_iff, andb_true_iff in Hupd as [Hd Hp].
    apply Nat.eqb_eq in Hd, Hp.
    pose proof (addLoop_counts l 0 0 0 lo hi) as (_ & _ & Hcnt).
    rewrite Heq in Hcnt. cbn in Hcnt.
    destruct (Hcnt Hd Hp) as (a & b & Hin & Ha & Hb).
    destruct (addLoop_inside l prev 0%nat lo hi a b Hs Hin Ha Hlt Hb) as [n Hn].
    rewrite Hn in Heq. inversion Heq; subst nlo nhi.
    destruct mid as [|m [|m' mid']]; try discriminate.
    destruct m as [ma mb].
    assert ((ma, mb) ∈ l) as Hinm.
    { rewrite Hl. apply elem_of_app. right. apply elem_of_cons. by left. }
    destruct (Hmid ma mb) as [? ?]; [apply elem_of_cons; by left|].
    destruct (areSortedFrom_safe _ _ _ _ Hs Hinm) as (_ & _ & ?).
    assert ((a, b) = (ma, mb)) as ->.
    { apply (areSortedFrom_disjoint prev l); try done; lia. }
    by rewrite Hl.
Qed.

(** The merged set covers what the old set covered and the new interval,
    and nothing else. *)
Lemma add_covers l lo hi v :
  areSortedDisjointSafeIntegerIntervals l = true -> lo < hi ->
  covers (addToSortedDisjointSafeIntegerIntervals l (lo, hi)).2 v <->
  covers l v \/ lo <= v <= hi.
Proof.
  intros Hs Hlt.
  destruct (add_shape None l lo hi Hs Hlt) as
    (pre & mid & post & nlo & nhi & Hl & -> & Hpre & Hle1 & Hle2 & Hmid
     & Hfirst & Hlast & _).
  unfold covers. rewrite Hl. split.
  - intros (x & y & Hin & Hv).
    apply elem_of_app in Hin as [Hin|[Heq|Hin]%elem_of_cons].
    + left. exists x, y. split; [|done]. apply elem_of_app. by left.
    + inversion Heq; subst x y.
      destruct (Z.lt_ge_cases v lo) as [Hvlo|Hvlo].
      * destruct Hfirst as [->|(b & Hin & Hb)]; [lia|].
        left. exists nlo, b. split; [|lia].
        apply elem_of_app. right. apply elem_of_app. by left.
      * destruct (Z.lt_ge_cases hi v) as [Hvhi|Hvhi]; [|right; lia].
        destruct Hlast as [->|(a & Hin & Ha)]; [lia|].
        left. exists a, nhi. split; [|lia].
        apply elem_of_app. right. apply elem_of_app. by left.
    + left. exists x, y. split; [|done].
      apply elem_of_app. right. apply elem_of_app. by right.
  - intros [(x & y & Hin & Hv)|Hv].
    + apply elem_of_app in Hin as [Hin|[Hin|Hin]%elem_of_app].
      * exists x, y. split; [|done]. apply elem_of_app. by left.
      * destruct (Hmid _ _ Hin). exists nlo, nhi. split; [|lia].
        apply elem_of_app. right. apply elem_of_cons. by left.
      * exists x, y. split; [|done].
        apply elem_of_app. right. apply elem_of_cons. by right.
    + exists nlo, nhi. split; [|lia].
      apply elem_of_app. right. apply elem_of_cons. by left.
Qed.

(** An index the loop returns is the index of an interval that contains the
    value, on any list of intervals. *)
Lemma indexLoop_sound l v : forall i,
  indexLoop l v i = -1 \/
  exists n a b, l !! n = Some (a, b) /\ a <= v <= b /\ indexLoop l v i = i + Z.of_nat n.
Proof.
  induction l as [|[c d] rest IH]; intros i; cbn [indexLoop]; [by left|].
  destruct (Z.ltb_spec d v) as [Hskip|Hnoskip].
  - destruct (IH (i + 1)) as [Hnone|(n & a & b & Hn & Hv & Heq)]; [by left|].
    right. exists (S n), a, b. rewrite Heq. split_and!; try done; lia.
  - destruct (Z.ltb_spec v c) as [?|?]; [by left|].
    right. exists 0%nat, c, d. split_and!; try done; lia.
Qed.

(** On a sorted set the loop finds the interval that contains the value. *)
Lemma indexLoop_complete l v : forall prev i n a b,
  areSortedFrom prev l = true -> l !! n = Some (a, b) -> a <= v <= b ->
  indexLoop l v i = i + Z.of_nat n.
Proof.
  induction l as [|[c d] rest IH]; intros prev i n a b Hs Hn Hv; [done|].
  apply areSortedFrom_cons in Hs as (_ & _ & _ & Hcd & Hrest).
  cbn [indexLoop]. destruct n as [|n].
  - inversion Hn; subst c d.
    destruct (Z.ltb_spec b v); [lia|]. destruct (Z.ltb_spec v a); lia.
  - simpl in Hn.
    assert ((a, b) ∈ rest) as Hin by (by eapply list_elem_of_lookup_2).
    pose proof (areSortedFrom_above _ _ _ _ Hrest Hin).
    destruct (Z.ltb_spec d v); [|lia].
    rewrite (IH (Some d) (i + 1) n a b); [lia|done..].
Qed.

Lemma index_found_covers l v :
  indexOfIntervalContainingValue l v <> -1 -> covers l v.
Proof.
  unfold indexOfIntervalContainingValue.
  destruct (indexLoop_sound l v 0) as [->|(n & a & b & Hn & Hv & _)]; [done|].
  intros _. exists a, b. split; [by eapply list_elem_of_lookup_2|done].
Qed.

Lemma index_not_covered l v :
  ~ covers l v -> indexOfIntervalContainingValue l v = -1.
Proof.
  intros Hnc. destruct (Z.eq_dec (indexOfIntervalContainingValue l v) (-1)); [done|].
  destruct Hnc. by apply index_found_covers.
Qed.

Lemma index_covered l v :
  areSortedDisjointSafeIntegerIntervals l = true -> covers l v ->
  indexOfIntervalContainingValue l v <> -1.
Proof.
  intros Hs (a & b & Hin & Hv).
  apply list_elem_of_lookup_1 in Hin as [n Hn].
  unfold indexOfIntervalContainingValue.
  rewrite (indexLoop_complete l v None 0 n a b Hs Hn Hv). lia.
Qed.

(** C5: inserting a safe-integer interval [[lo, hi]] with [lo < hi] into a
    valid (sorted, disjoint-with-gap) interval set leaves a set that
    satisfies the validity predicate again. *)
Theorem add_preserves_validity (S : list interval) (lo hi : Z) :
  areSortedDisjointSafeIntegerIntervals S = true ->
  isSafeInteger lo = true -> isSafeInteger hi = true -> lo < hi ->
  areSortedDisjointSafeIntegerIntervals
    (addToSortedDisjointSafeIntegerIntervals S (lo, hi)).2 = true.
Proof.
  intros Hs Hlo Hhi Hlt.
  destruct (add_shape None S lo hi Hs Hlt) as
    (pre & mid & post & nlo & nhi & _ & -> & _ & _ & _ & _ & _ & _ & Hsorted).
  by apply Hsorted.
Qed.

Lemma add_preserves_validity_witness :
  areSortedDisjointSafeIntegerIntervals
    (addToSortedDisjointSafeIntegerIntervals [(1, 2); (4, 5); (7, 8)] (2, 7)).2 = true.
Proof.
  apply (add_preserves_validity [(1, 2); (4, 5); (7, 8)] 2 7); [reflexivity..|lia].
Defined.

(** No change is reported exactly when one interval of the set covers the
    new one. *)
Lemma add_unchanged_covered prev l lo hi :
  areSortedFrom prev l = true -> lo < hi ->
  (addToSortedDisjointSafeIntegerIntervals l (lo, hi)).1 = false <->
  exists a b, (a, b) ∈ l /\ a <= lo /\ hi <= b.
Proof.
  intros Hs Hlt.
  unfold addToSortedDisjointSafeIntegerIntervals. cbn [fst snd]. split.
  - destruct (negb _) eqn:Hupd; [done|]. intros _.
    apply negb_false_iff, andb_true_iff in Hupd as [Hd Hp].
    apply Nat.eqb_eq in Hd, Hp.
    pose proof (addLoop_counts l 0 0 0 lo hi) as (_ & _ & Hcnt).
    by apply Hcnt.
  - intros (a & b & Hin & Ha & Hb).
    destruct (addLoop_inside l prev 0%nat lo hi a b Hs Hin Ha Hlt Hb) as [n ->].
    done.
Qed.

Lemma add_unchanged_same l new :
  (addToSortedDisjointSafeIntegerIntervals l new).1 = false ->
  addToSortedDisjointSafeIntegerIntervals l new = (false, l).
Proof. unfold addToSortedDisjointSafeIntegerIntervals. by destruct (negb _). Qed.

(** Inserting an interval a second time changes nothing. *)
Lemma add_idempotent l lo hi :
  areSortedDisjointSafeIntegerIntervals l = true ->
  isSafeInteger lo = true -> isSafeInteger hi = true -> lo < hi ->
  addToSortedDisjointSafeIntegerIntervals
    (addToSortedDisjointSafeIntegerIntervals l (lo, hi)).2 (lo, hi)
  = (false, (addToSortedDisjointSafeIntegerIntervals l (lo, hi)).2).
Proof.
  intros Hs Hlo Hhi Hlt.
  destruct (add_shape None l lo hi Hs Hlt) as
    (pre & mid & post & nlo & nhi & _ & -> & _ & Hle1 & Hle2 & _ & _ & _ & Hsorted).
  apply add_unchanged_same, (add_unchanged_covered None); [by apply Hsorted|done|].
  exists nlo, nhi. split_and!; [|done..].
  apply elem_of_app. right. apply elem_of_cons. by left.
Qed.

(** C6: on a valid set and an interval with [lo < hi], the insertion reports
    no change exactly when one interval of the set already covers
    [[lo, hi]]; then the set is left as it was, and in every other case the
    insertion reports a change. *)
Theorem add_unchanged_iff_covered (S : list interval) (lo hi : Z) :
  areSortedDisjointSafeIntegerIntervals S = true -> lo < hi ->
  ((addToSortedDisjointSafeIntegerIntervals S (lo, hi)).1 = false <->
   exists a b, (a, b) ∈ S /\ a <= lo /\ hi <= b) /\
  ((addToSortedDisjointSafeIntegerIntervals S (lo, hi)).1 = false ->
   (addToSortedDisjointSafeIntegerIntervals S (lo, hi)).2 = S) /\
  ((~ exists a b, (a, b) ∈ S /\ a <= lo /\ hi <= b) ->
   (addToSortedDisjointSafeIntegerIntervals S (lo, hi)).1 = true).
Proof.
  intros Hs Hlt.
  pose proof (add_unchanged_covered None S lo hi Hs Hlt) as Hiff.
  split_and!; [done| |].
  - intros Hsame. by rewrite (add_unchanged_same _ _ Hsame).
  - intros Hnc. destruct (addToSortedDisjointSafeIntegerIntervals S (lo, hi)).1 eqn:E;
      [done|]. destruct Hnc. by apply Hiff.
Qed.

Lemma add_unchanged_iff_covered_witness :
  (addToSortedDisjointSafeIntegerIntervals [(1, 3); (7, 18)] (8, 9)).1 = false /\
  (addToSortedDisjointSafeIntegerIntervals [(1, 3); (7, 18)] (8, 9)).2 = [(1, 3); (7, 18)].
Proof.
  destruct (add_unchanged_iff_covered [(1, 3); (7, 18)] 8 9) as (Hiff & Hsame & _);
    [reflexivity|lia|].
  assert ((addToSortedDisjointSafeIntegerIntervals [(1, 3); (7, 18)] (8, 9)).1 = false)
    as Hfalse.
  { apply Hiff. exists 7, 18. split; [|lia].
    apply elem_of_cons. right. apply elem_of_cons. by left. }
  split; [exact Hfalse|exact (Hsame Hfalse)].
Defined.

(** C8: on a valid set, [indexOfIntervalContainingValue] returns the index
    of the one interval whose closed range contains the value when there is
    such an interval, and -1 when no interval contains it. *)
Theorem index_of_containing_interval (S : list interval) (v : Z) :
  areSortedDisjointSafeIntegerIntervals S = true ->
  (forall (n : nat) a b, S !! n = Some (a, b) -> a <= v <= b ->
     indexOfIntervalContainingValue S v = Z.of_nat n) /\
  ((forall a b, (a, b) ∈ S -> ~ (a <= v <= b)) ->
     indexOfIntervalContainingValue S v = -1).
Proof.
  intros Hs. split.
  - intros n a b Hn Hv. unfold indexOfIntervalContainingValue.
    by rewrite (indexLoop_complete S v None 0 n a b Hs Hn Hv).
  - intros Hnone. apply index_not_covered. intros (a & b & Hin & Hv).
    by apply (Hnone a b).
Qed.

Lemma index_of_containing_interval_witness :
  indexOfIntervalContainingValue [(1, 3); (7, 18)] 9 = 1 /\
  indexOfIntervalContainingValue [(1, 3); (7, 18)] 5 = -1.
Proof.
  destruct (index_of_containing_interval [(1, 3); (7, 18)] 9 eq_refl) as [Hfound _].
  destruct (index_of_containing_interval [(1, 3); (7, 18)] 5 eq_refl) as [_ Hnone].
  split.
  - apply (Hfound 1%nat 7 18); [reflexivity|lia].
  - apply Hnone. intros a b Hin Hv.
    repeat (apply elem_of_cons in Hin as [Heq|Hin]; [inversion Heq; subst; lia|]).
    by apply elem_of_nil in Hin.
Defined.

(** ** Cursor validity *)

Lemma validCursors_Some g w :
  validCursors (Some g) w = true <->
  isSafePositiveInteger g = true /\ areSortedFrom (Some g) w = true.
Proof.
  unfold validCursors, areSortedDisjointSafeIntegerIntervals.
  destruct (isSafePositiveInteger g) eqn:Hg.
  - rewrite areSortedFrom_cons.
    apply isSafePositiveInteger_spec in Hg.
    assert (isSafeInteger g = true) by (apply isSafeInteger_spec; unfold MAX_SAFE_INTEGER in *; lia).
    intuition.
  - intuition congruence.
Qed.

Lemma validCursors_None w : validCursors None w = true <-> w = [].
Proof. destruct w; simpl; intuition congruence. Qed.

Lemma validCursors_above g w lo hi :
  validCursors (Some g) w = true -> (lo, hi) ∈ w -> g < lo /\ lo < hi.
Proof.
  intros [_ Hs]%validCursors_Some Hin. by apply (areSortedFrom_above g w).
Qed.

Lemma validCursors_not_covered g w :
  validCursors (Some g) w = true -> ~ covers w g.
Proof.
  intros Hv (lo & hi & Hin & Hg).
  pose proof (validCursors_above _ _ _ _ Hv Hin). lia.
Qed.

Lemma validTaggedCursors_valid g w h :
  validTaggedCursors g w h = true -> validCursors g w = true.
Proof. unfold validTaggedCursors. by destruct (validCursors g w). Qed.

Lemma saveCursors_checked where_ ctx :
  initContext where_ = Some ctx -> checkedSave (saveCursors ctx).
Proof.
  intros Hctx c st. destruct where_; simplify_eq/=.
  - unfold dashboardSaveCursors.
    destruct (validCursors _ _) eqn:Hv; simpl; [right|left]; eauto.
  - unfold taggedSaveCursors.
    destruct (validTaggedCursors _ _ _) eqn:Hv; simpl; [right|left]; eauto.
    eexists. split; [done|]. by eapply validTaggedCursors_valid.
Qed.

Lemma saveCursors_valid where_ ctx c st :
  initContext where_ = Some ctx -> (saveCursors ctx c st).1 = Normal tt ->
  validCursors (goalPostId c) (witnessedPostIds c) = true.
Proof.
  intros Hctx Hsave.
  destruct (saveCursors_checked _ _ Hctx c st) as [[m Hm]|(st' & _ & Hv)]; [|done].
  by rewrite Hm in Hsave.
Qed.

Lemma loadCursors_valid where_ ctx c st :
  initContext where_ = Some ctx -> loadCursors ctx st = Normal c ->
  validCursors (goalPostId c) (witnessedPostIds c) = true.
Proof.
  intros Hctx Hload. destruct where_; simplify_eq/=.
  - unfold dashboardLoadCursors in Hload.
    destruct (st !! dashboardKey) as [[g w|g w raw]|];
      destruct (validCursors _ _) eqn:Hv; by simplify_eq/=.
  - unfold taggedLoadCursors in Hload.
    destruct (st !! taggedKey encodedTag) as [[g w|g w raw]|];
      destruct (validTaggedCursors _ _ _) eqn:Hv; simplify_eq/=;
      first [done | by eapply validTaggedCursors_valid].
Qed.

(** C10: a cursor with a non-null goal post that the validity check accepts
    has every witnessed interval strictly above the goal post; [loadCursors]
    and [saveCursors] of either context run that check, so the same holds of
    every cursor they load or write. *)
Theorem witnessed_above_goal_post (where_ : location) (ctx : context)
    (c : Cursors) (st : storage) (g : Z) :
  initContext where_ = Some ctx ->
  validCursors (goalPostId c) (witnessedPostIds c) = true \/
    loadCursors ctx st = Normal c \/
    (saveCursors ctx c st).1 = Normal tt ->
  goalPostId c = Some g ->
  forall lo hi, (lo, hi) ∈ witnessedPostIds c -> g < lo /\ ~ (lo <= g <= hi).
Proof.
  intros Hctx Hvalid Hg lo hi Hin.
  assert (validCursors (goalPostId c) (witnessedPostIds c) = true) as Hv.
  { destruct Hvalid as [?|[Hload|Hsave]]; [done| |].
    - by eapply loadCursors_valid.
    - by eapply saveCursors_valid. }
  rewrite Hg in Hv. pose proof (validCursors_above _ _ _ _ Hv Hin). lia.
Qed.

Lemma witnessed_above_goal_post_witness :
  100 < 110 /\ ~ (110 <= 100 <= 120).
Proof.
  apply (witnessed_above_goal_post (Dashboard true None None)
           (dashboardContext true None None)
           (MkCursors (Some 100) [(103, 105); (110, 120)] []) ∅ 100).
  - reflexivity.
  - right. right. reflexivity.
  - reflexivity.
  - apply elem_of_cons. right. apply elem_of_cons. by left.
Defined.

(** ** Reconciliation: what a call does to the storage *)

Section Persistence.
Variable save : Cursors -> storage -> completion unit * storage.
Hypothesis save_checked : checkedSave save.

Lemma saveAndReturn_cases c v st :
  (exists message, saveAndReturn save c v st = (Throw message, c, st)) \/
  (exists st', saveAndReturn save c v st = (Normal v, c, st') /\
               save c st = (Normal tt, st') /\
               validCursors (goalPostId c) (witnessedPostIds c) = true).
Proof.
  unfold saveAndReturn.
  destruct (save_checked c st) as [[m ->]|(st' & -> & Hv)]; [left|right]; eauto.
Qed.

Lemma saveAndReturn_outcome c v st : storageOutcome save st (saveAndReturn save c v st).
Proof.
  destruct (saveAndReturn_cases c v st) as [[m ->]|(st' & -> & Hs & Hv)];
    [by left|right]. simpl. eauto.
Qed.

Lemma reconcileWitnessed_outcome c postIds goal witnessed upd st :
  storageOutcome save st (reconcileWitnessed c postIds goal witnessed upd save st).
Proof.
  unfold reconcileWitnessed. destruct witnessed as [oldest newest].
  destruct (newest <=? oldest); [by left|].
  destruct (addToSortedDisjointSafeIntegerIntervals _ _) as [updated intervals].
  destruct (_ =? -1).
  - destruct updated; [apply saveAndReturn_outcome|by left].
  - destruct (negb _); [by left|].
    destruct intervals as [|[lo hi] remaining]; [by left|].
    apply saveAndReturn_outcome.
Qed.

Lemma reconcile_outcome c postIds initial firstPage aug upd st :
  storageOutcome save st (reconcile c postIds initial firstPage aug upd save st).
Proof.
  unfold reconcile. destruct postIds as [|newest rest]; [by left|].
  destruct (initial && _); [apply saveAndReturn_outcome|].
  destruct (goalPostId c) as [goal|]; [|by left].
  destruct (negb _); [by left|].
  destruct initial; [|apply reconcileWitnessed_outcome].
  destruct (newest <? goal); [|apply reconcileWitnessed_outcome].
  destruct firstPage; [apply saveAndReturn_outcome|by left].
Qed.
End Persistence.

(** C9: when a call of [reconcile] throws (the goal post is missing or not a
    positive safe integer, the observed interval is degenerate, the goal
    post is contained without a change or outside the first interval, or
    [saveCursors] refuses the cursors), the storage is what it was when the
    call began: nothing was persisted. *)
Theorem reconcile_throw_persists_nothing (where_ : location) (ctx : context)
    (c : Cursors) (postIds : list Z) (initial firstPage : bool)
    (aug : Cursors -> interval -> interval) (upd : Cursors -> list Z -> Cursors)
    (st : storage) (message : string) (c' : Cursors) (st' : storage) :
  initContext where_ = Some ctx ->
  reconcile c postIds initial firstPage aug upd (saveCursors ctx) st
    = (Throw message, c', st') ->
  st' = st.
Proof.
  intros Hctx Hrun.
  pose proof (reconcile_outcome _ (saveCursors_checked _ _ Hctx)
                c postIds initial firstPage aug upd st) as Hout.
  rewrite Hrun in Hout. destruct Hout as [?|([v Hv] & _)]; [done|]. discriminate.
Qed.

Lemma reconcile_throw_persists_nothing_witness :
  (reconcile (MkCursors (Some 100) [] []) [105] false true identityHints
     (fun cursors _ => cursors) (saveCursors (dashboardContext true None None))
     (<[dashboardKey := StoredCursors (Some 100) []]> ∅)).2
  = <[dashboardKey := StoredCursors (Some 100) []]> ∅.
Proof.
  apply (reconcile_throw_persists_nothing (Dashboard true None None)
           (dashboardContext true None None)
           (MkCursors (Some 100) [] []) [105] false true identityHints
           (fun cursors _ => cursors)
           (<[dashboardKey := StoredCursors (Some 100) []]> ∅)
           "Invariants broken" (MkCursors (Some 100) [] [])).
  - reflexivity.
  - reflexivity.
Defined.

(** ** The posts a page shows *)

Lemma enumerateFrom_inv elemIds : forall prev postIds,
  enumerateFrom prev elemIds = Normal postIds ->
  postIds = elemIds /\
  Forall (fun p => isSafePositiveInteger p = true) postIds /\
  Sorted (flip Z.lt) postIds /\
  (forall p, prev = Some p -> HdRel (flip Z.lt) p postIds).
Proof.
  induction elemIds as [|postId rest IH]; intros prev postIds Henum; simpl in Henum.
  - inversion Henum; subst. split_and!; try done; try (intros p _; constructor).
  - destruct (isSafePositiveInteger postId) eqn:Hsafe; simpl in Henum; [|done].
    destruct (geFromPrev postId prev) eqn:Hge; [done|].
    destruct (enumerateFrom (Some postId) rest) as [ids|] eqn:Hrest; [|done].
    inversion Henum; subst postIds.
    destruct (IH _ _ Hrest) as (-> & Hall & Hsorted & Hhd).
    split_and!; try done.
    + by constructor.
    + constructor; [done|]. by apply Hhd.
    + intros p ->. constructor. simpl in Hge. unfold flip.
      destruct (Z.leb_spec p postId); [done|lia].
Qed.

Lemma enumerate_newest_safe elemIds newest rest :
  enumerateDashboardPostIds elemIds = Normal (newest :: rest) ->
  isSafePositiveInteger newest = true.
Proof.
  intros (_ & Hall & _)%enumerateFrom_inv. by inversion Hall.
Qed.

(** ** Reconciliation on the initial pass *)

Lemma validCursors_fresh newest :
  isSafePositiveInteger newest = true -> validCursors (Some newest) [] = true.
Proof. intros Hsafe. by apply validCursors_Some. Qed.

(** The branch of [reconcile] for a batch below the goal post on the initial
    pass. *)
Lemma reconcile_initial_older (where_ : location) (ctx : context)
    (nextPageTimestamp : option Z) (c : Cursors)
    (g newest : Z) (rest : list Z) (st : storage) :
  initContext where_ = Some ctx ->
  goalPostId c = Some g ->
  isSafePositiveInteger g = true ->
  isSafePositiveInteger newest = true ->
  newest < g ->
  (isFirstPage ctx = true ->
   let c' := updateAdjacencyHints ctx nextPageTimestamp
               (MkCursors (Some newest) [] (adjacencyHints c)) (newest :: rest) in
   exists st',
     runReconcile ctx nextPageTimestamp c (newest :: rest) true st
       = (Normal newest, c', st') /\
     goalPostId c' = Some newest /\ witnessedPostIds c' = [] /\
     saveCursors ctx c' st = (Normal tt, st') /\
     loadCursors ctx st' = Normal (MkCursors (Some newest) [] [])) /\
  (isFirstPage ctx = false ->
   runReconcile ctx nextPageTimestamp c (newest :: rest) true st
     = (Normal RECONCILE_ABORT, c, st)).
Proof.
  intros Hctx Hg Hsafe Hnewest Hlt.
  pose proof (validCursors_fresh _ Hnewest) as Hfresh.
  assert (forall fp aug upd save,
            reconcile c (newest :: rest) true fp aug upd save st =
            if fp then
              saveAndReturn save
                (upd (MkCursors (Some newest) [] (adjacencyHints c)) (newest :: rest))
                newest st
            else (Normal RECONCILE_ABORT, c, st)) as Hrec.
  { intros. unfold reconcile. rewrite Hg, Hsafe. cbn [andb negb].
    rewrite bool_decide_eq_false_2 by done.
    by destruct (Z.ltb_spec newest g); [|lia]. }
  unfold runReconcile. rewrite Hrec. split; intros ->; [|done].
  destruct where_ as [e pn sp|e tag ts|]; inversion Hctx; subst ctx.
  - unfold saveAndReturn, dashboardContext, dashboardSaveCursors, dashboardLoadCursors.
    cbn [saveCursors loadCursors updateAdjacencyHints goalPostId witnessedPostIds].
    rewrite Hfresh. cbn [negb]. eexists. split_and!; try done.
    by rewrite lookup_insert_eq, Hfresh.
  - unfold saveAndReturn, taggedContext, taggedSaveCursors, taggedLoadCursors,
      taggedUpdateAdjacencyHints, validTaggedCursors.
    cbn [saveCursors loadCursors updateAdjacencyHints goalPostId witnessedPostIds
         adjacencyHints length Nat.eqb].
    rewrite Hfresh. cbn [negb]. eexists. split_and!; try done.
    rewrite lookup_insert_eq. cbn [newMap fold_left length Nat.eqb].
    by rewrite Hfresh.
Qed.

(** C7: on the initial pass, with a valid cursor whose goal post is not null
    and a batch whose newest ID is below the goal post: on the first page
    [reconcile] makes the newest ID the goal post, empties the witnessed
    intervals, refreshes the hints (none are left), persists and returns
    that ID; on any other page it returns [RECONCILE_ABORT] and leaves the
    cursors and the storage as they were. *)
Theorem initial_pass_batch_older_than_goal_post (where_ : location) (ctx : context)
    (nextPageTimestamp : option Z) (c : Cursors) (elemIds : list Z)
    (g newest : Z) (rest : list Z) (st : storage) :
  initContext where_ = Some ctx ->
  validCursors (goalPostId c) (witnessedPostIds c) = true ->
  goalPostId c = Some g ->
  enumerateDashboardPostIds elemIds = Normal (newest :: rest) ->
  newest < g ->
  (isFirstPage ctx = true ->
   let c' := updateAdjacencyHints ctx nextPageTimestamp
               (MkCursors (Some newest) [] (adjacencyHints c)) (newest :: rest) in
   exists st',
     runReconcile ctx nextPageTimestamp c (newest :: rest) true st
       = (Normal newest, c', st') /\
     goalPostId c' = Some newest /\ witnessedPostIds c' = [] /\
     saveCursors ctx c' st = (Normal tt, st') /\
     loadCursors ctx st' = Normal (MkCursors (Some newest) [] [])) /\
  (isFirstPage ctx = false ->
   runReconcile ctx nextPageTimestamp c (newest :: rest) true st
     = (Normal RECONCILE_ABORT, c, st)).
Proof.
  intros Hctx Hvalid Hg Henum Hlt.
  pose proof (enumerate_newest_safe _ _ _ Henum) as Hnewest.
  rewrite Hg in Hvalid. apply validCursors_Some in Hvalid as [Hsafe _].
  by apply (reconcile_initial_older where_ ctx nextPageTimestamp c g).
Qed.

Lemma initial_pass_batch_older_than_goal_post_witness :
  (exists st',
     runReconcile (taggedContext true "Zm9v" (Some 0)) (Some 1500000000)
       (MkCursors (Some 100) [(120, 130)] [(1400000000, 120)]) [99; 98] true ∅
       = (Normal 99, MkCursors (Some 99) [] [], st') /\
     loadCursors (taggedContext true "Zm9v" (Some 0)) st'
       = Normal (MkCursors (Some 99) [] [])) /\
  runReconcile (dashboardContext true (Some 2) None) None
    (MkCursors (Some 100) [(120, 130)] []) [99; 98] true ∅
    = (Normal RECONCILE_ABORT, MkCursors (Some 100) [(120, 130)] [], ∅).
Proof.
  split.
  - destruct (initial_pass_batch_older_than_goal_post
                (Tagged true "Zm9v" (Some 0)) (taggedContext true "Zm9v" (Some 0))
                (Some 1500000000)
                (MkCursors (Some 100) [(120, 130)] [(1400000000, 120)])
                [99; 98] 100 99 [98] ∅) as [Hfirst _];
      [reflexivity | reflexivity | reflexivity | reflexivity | lia |].
    destruct (Hfirst eq_refl) as (st' & Hrun & _ & _ & _ & Hload).
    exists st'. split; [exact Hrun | exact Hload].
  - destruct (initial_pass_batch_older_than_goal_post
                (Dashboard true (Some 2) None) (dashboardContext true (Some 2) None)
                None (MkCursors (Some 100) [(120, 130)] [])
                [99; 98] 100 99 [98] ∅) as [_ Hlater];
      [reflexivity | reflexivity | reflexivity | reflexivity | lia |].
    exact (Hlater eq_refl).
Defined.

(** ** The never-visited state *)

(** C3, as stated, fails: the validity check accepts a goal post with no
    witnessed interval, so an empty interval set does not force a null goal
    post. *)
Lemma null_iff_empty_counterexample :
  ~ (forall (g : option Z) (w : list interval),
       validCursors g w = true -> (g = None <-> w = [])).
Proof.
  intros Hall.
  destruct (Hall (Some 100) [] eq_refl) as [_ Hnull].
  discriminate (Hnull eq_refl).
Qed.

(** C3, amended: in every cursor the validity check accepts, and in every
    cursor a call of [reconcile] persists, a null goal post implies that
    there is no witnessed interval.  (The converse fails: the first visit
    persists a goal post with no witnessed interval.) *)
Theorem null_goal_post_implies_no_intervals (where_ : location) (ctx : context)
    (nextPageTimestamp : option Z) (c : Cursors) (postIds : list Z)
    (initial : bool) (st : storage) (g : option Z) (w : list interval) :
  initContext where_ = Some ctx ->
  (validCursors g w = true -> g = None -> w = []) /\
  (let res := runReconcile ctx nextPageTimestamp c postIds initial st in
   res.2 = st \/
   saveCursors ctx res.1.2 st = (Normal tt, res.2) /\
   validCursors (goalPostId res.1.2) (witnessedPostIds res.1.2) = true /\
   (goalPostId res.1.2 = None -> witnessedPostIds res.1.2 = [])).
Proof.
  intros Hctx. split.
  - intros Hvalid ->. by apply validCursors_None.
  - cbv zeta. unfold runReconcile.
    destruct (reconcile_outcome _ (saveCursors_checked _ _ Hctx) c postIds initial
                (isFirstPage ctx) (augmentWithAdjacencyHints ctx)
                (updateAdjacencyHints ctx nextPageTimestamp) st)
      as [?|(_ & Hsave & Hvalid)]; [by left|right].
    split_and!; try done.
    intros Hnull. rewrite Hnull in Hvalid. by apply validCursors_None.
Qed.

Lemma null_goal_post_implies_no_intervals_witness :
  (validCursors None [] = true -> (None : option Z) = None -> ([] : list interval) = []) /\
  ((runReconcile (dashboardContext true None None) None (MkCursors None [] [])
      [50; 49; 48] true ∅).2 = ∅ \/
   saveCursors (dashboardContext true None None)
     (runReconcile (dashboardContext true None None) None (MkCursors None [] [])
        [50; 49; 48] true ∅).1.2 ∅
   = (Normal tt,
      (runReconcile (dashboardContext true None None) None (MkCursors None [] [])
         [50; 49; 48] true ∅).2) /\
   validCursors (Some 50) [] = true /\
   ((Some 50 : option Z) = None -> ([] : list interval) = [])).
Proof.
  exact (null_goal_post_implies_no_intervals (Dashboard true None None)
           (dashboardContext true None None) None (MkCursors None [] [])
           [50; 49; 48] true ∅ None [] eq_refl).
Defined.

(** ** Deferred convergence *)

(** C1: from the valid cursor with goal post 100 and no witnessed interval,
    with identity hint augmentation: the initial pass over [[105,104,103]]
    returns [RECONCILE_DEFER] and persists the witnessed interval
    [[103,105]] with the goal post unchanged; the later pass over
    [[103,102,101,100,99]] reaches the goal post, returns the resolved ID
    100, makes 105 the goal post and leaves no witnessed interval, which it
    persists. *)
Theorem deferred_convergence (where_ : location) (ctx : context)
    (nextPage1 nextPage2 : option Z) (st : storage) :
  initContext where_ = Some ctx ->
  (forall cursors witnessed, augmentWithAdjacencyHints ctx cursors witnessed = witnessed) ->
  exists c1 st1 c2 st2 resolved,
    runReconcile ctx nextPage1 (MkCursors (Some 100) [] []) [105; 104; 103] true st
      = (Normal RECONCILE_DEFER, c1, st1) /\
    goalPostId c1 = Some 100 /\ witnessedPostIds c1 = [(103, 105)] /\
    saveCursors ctx c1 st = (Normal tt, st1) /\
    loadCursors ctx st1 = Normal c1 /\
    runReconcile ctx nextPage2 c1 [103; 102; 101; 100; 99] false st1
      = (Normal resolved, c2, st2) /\
    100 <= resolved /\ resolved = 100 /\
    goalPostId c2 = Some 105 /\ witnessedPostIds c2 = [] /\
    saveCursors ctx c2 st1 = (Normal tt, st2) /\
    loadCursors ctx st2 = Normal c2.
Proof.
  intros Hctx Haug.
  unfold runReconcile, reconcile. cbn [goalPostId andb].
  rewrite bool_decide_eq_false_2 by done.
  change (negb (isSafePositiveInteger 100)) with false. cbv iota.
  change (105 <? 100) with false. cbv iota. rewrite Haug.
  change (default 105 (last [105; 104; 103])) with 103.
  unfold reconcileWitnessed at 1.
  change (105 <=? 103) with false. cbv iota.
  cbn [witnessedPostIds].
  change (addToSortedDisjointSafeIntegerIntervals [] (103, 105)) with (true, [(103, 105)]).
  cbv iota beta.
  change (indexOfIntervalContainingValue [(103, 105)] 100 =? -1) with true. cbv iota.
  cbn [adjacencyHints goalPostId].
  destruct where_ as [e pn sp|e tag ts|]; inversion Hctx; subst ctx; clear Hctx.
  - cbn [updateAdjacencyHints saveCursors dashboardContext loadCursors].
    unfold saveAndReturn at 1. unfold dashboardSaveCursors at 1.
    cbn [goalPostId witnessedPostIds].
    change (validCursors (Some 100) [(103, 105)]) with true. cbn [negb].
    do 5 eexists. split_and!.
    + reflexivity.
    + reflexivity.
    + reflexivity.
    + reflexivity.
    + unfold dashboardLoadCursors. rewrite lookup_insert_eq. reflexivity.
    + cbn [goalPostId]. change (negb (isSafePositiveInteger 100)) with false. cbv iota.
      unfold reconcileWitnessed, saveAndReturn, dashboardSaveCursors.
      reflexivity.
    + cbv. discriminate.
    + reflexivity.
    + reflexivity.
    + reflexivity.
    + reflexivity.
    + unfold dashboardLoadCursors. rewrite lookup_insert_eq. reflexivity.
  - cbn [updateAdjacencyHints saveCursors taggedContext loadCursors].
    assert (exists h,
              taggedUpdateAdjacencyHints nextPage1
                (MkCursors (Some 100) [(103, 105)] []) [105; 104; 103]
              = MkCursors (Some 100) [(103, 105)] h /\
              validTaggedCursors (Some 100) [(103, 105)] h = true /\
              newMap h = h) as (h & -> & Hvalid & Hmap).
    { unfold taggedUpdateAdjacencyHints. cbn [witnessedPostIds length Nat.eqb last].
      destruct nextPage1 as [t1|]; [|by exists []].
      destruct (isSafePositiveInteger t1) eqn:Ht1; [|by exists []].
      exists [(t1, 103)]. split_and!; [done| |done].
      unfold validTaggedCursors. change (validCursors (Some 100) [(103, 105)]) with true.
      cbn [negb length Nat.eqb forallb validHint]. by rewrite Ht1. }
    unfold saveAndReturn at 1. unfold taggedSaveCursors at 1.
    cbn [goalPostId witnessedPostIds adjacencyHints]. rewrite Hvalid. cbn [negb].
    do 5 eexists. split_and!.
    + reflexivity.
    + reflexivity.
    + reflexivity.
    + unfold taggedSaveCursors. cbn [goalPostId witnessedPostIds adjacencyHints].
      by rewrite Hvalid.
    + unfold taggedLoadCursors. rewrite lookup_insert_eq, Hmap, Hvalid. reflexivity.
    + cbn [goalPostId]. change (negb (isSafePositiveInteger 100)) with false. cbv iota.
      unfold reconcileWitnessed, saveAndReturn, taggedSaveCursors.
      reflexivity.
    + cbv. discriminate.
    + reflexivity.
    + reflexivity.
    + reflexivity.
    + reflexivity.
    + unfold taggedLoadCursors. rewrite lookup_insert_eq. reflexivity.
Qed.

Lemma deferred_convergence_witness :
  exists c1 st1 c2 st2 resolved,
    runReconcile (dashboardContext true None None) None
      (MkCursors (Some 100) [] []) [105; 104; 103] true ∅
      = (Normal RECONCILE_DEFER, c1, st1) /\
    goalPostId c1 = Some 100 /\ witnessedPostIds c1 = [(103, 105)] /\
    saveCursors (dashboardContext true None None) c1 ∅ = (Normal tt, st1) /\
    loadCursors (dashboardContext true None None) st1 = Normal c1 /\
    runReconcile (dashboardContext true None None) None c1 [103; 102; 101; 100; 99] false st1
      = (Normal resolved, c2, st2) /\
    100 <= resolved /\ resolved = 100 /\
    goalPostId c2 = Some 105 /\ witnessedPostIds c2 = [] /\
    saveCursors (dashboardContext true None None) c2 st1 = (Normal tt, st2) /\
    loadCursors (dashboardContext true None None) st2 = Normal c2.
Proof.
  exact (deferred_convergence (Dashboard true None None)
           (dashboardContext true None None) None None ∅ eq_refl
           (fun _ _ => eq_refl)).
Defined.

(** ** Reaching the goal post *)

(** The scan for the best goal post over IDs in increasing order, started at
    an ID that does not exceed the goal post: it ends on the last ID that
    does not exceed the goal post, which is the largest such ID. *)
Lemma bestLoop_spec ids : forall best g,
  StronglySorted Z.lt (best :: ids) -> best <= g ->
  last (filter (fun p => p <= g) (best :: ids)) = Some (bestLoop ids g best) /\
  bestLoop ids g best ∈ best :: ids /\
  bestLoop ids g best <= g /\
  (forall p, p ∈ best :: ids -> p <= g -> p <= bestLoop ids g best).
Proof.
  induction ids as [|p rest IH]; intros best g Hsorted Hbest.
  - rewrite filter_cons_True by done. simpl. split_and!; try done.
    + apply elem_of_cons. by left.
    + intros q [->|Hq]%elem_of_cons Hle; [lia|by apply elem_of_nil in Hq].
  - apply StronglySorted_inv in Hsorted as [Hrest Hall].
    cbn [bestLoop]. destruct (Z.ltb_spec g p) as [Hgp|Hpg].
    + assert (filter (fun q => q <= g) (p :: rest) = []) as Hnone.
      { apply StronglySorted_inv in Hrest as [_ Hallp].
        rewrite filter_cons_False by lia.
        clear -Hallp Hgp. induction rest as [|q rest IH]; [done|].
        inversion Hallp; subst. rewrite filter_cons_False by lia. by apply IH. }
      rewrite filter_cons_True, Hnone by done. split_and!; try done.
      * apply elem_of_cons. by left.
      * intros q [->|Hq]%elem_of_cons Hle; [lia|].
        exfalso. eapply filter_nil_not_elem_of; [exact Hnone|exact Hle|exact Hq].
    + destruct (IH p g Hrest Hpg) as (Hlast & Hin & Hle & Hmax).
      rewrite filter_cons_True by done. rewrite last_cons, Hlast.
      split_and!; try done.
      * apply elem_of_cons. by right.
      * intros q [->|Hq]%elem_of_cons Hq'; [|by apply Hmax].
        inversion Hall as [|? ? Hbp _]; subst.
        assert (p <= bestLoop rest g p); [|lia].
        apply Hmax; [apply elem_of_cons; by left|done].
Qed.

Lemma bestGoalPost_spec postIds g oldest :
  Sorted (flip Z.lt) postIds -> last postIds = Some oldest -> oldest <= g ->
  last (filter (fun p => p <= g) (reverse postIds)) = Some (bestGoalPost postIds g) /\
  bestGoalPost postIds g ∈ postIds /\
  bestGoalPost postIds g <= g /\
  (forall p, p ∈ postIds -> p <= g -> p <= bestGoalPost postIds g).
Proof.
  intros Hsorted Hlast Hle.
  apply Sorted_reverse in Hsorted.
  change (flip (flip Z.lt)) with Z.lt in Hsorted.
  apply (Sorted_StronglySorted _) in Hsorted.
  rewrite <-head_reverse in Hlast. unfold bestGoalPost.
  destruct (reverse postIds) as [|o newer] eqn:Hrev; [done|].
  inversion Hlast; subst o.
  destruct (bestLoop_spec newer oldest g Hsorted Hle) as (H1 & H2 & H3 & H4).
  split_and!; try done.
  - apply elem_of_reverse. by rewrite Hrev.
  - intros p Hp. apply H4. rewrite <-Hrev. by apply elem_of_reverse.
Qed.

(** The lower endpoint that a context's hint augmentation returns is the
    one it was given, or a post ID that the witnessed intervals cover. *)
Lemma augment_lower where_ ctx c oldest newest :
  initContext where_ = Some ctx ->
  (augmentWithAdjacencyHints ctx c (oldest, newest)).1 = oldest \/
  covers (witnessedPostIds c) (augmentWithAdjacencyHints ctx c (oldest, newest)).1.
Proof.
  intros Hctx.
  destruct where_ as [e pn sp|e tag ts|]; inversion Hctx; subst ctx; clear Hctx.
  - unfold dashboardContext. cbn [augmentWithAdjacencyHints].
    destruct (negb _); [by left|].
    destruct sp as [signed|]; [|by left].
    destruct (isSafeInteger signed && negb (signed =? 0)); [|by left].
    destruct (0 <? signed).
    + destruct (negb _); by left.
    + destruct (negb _) eqn:Hidx; [|by left].
      right. cbn [fst]. apply index_found_covers.
      apply negb_true_iff in Hidx. by apply Z.eqb_neq in Hidx.
  - unfold taggedContext. cbn [augmentWithAdjacencyHints].
    destruct ts as [t|]; [|by left].
    destruct (isSafePositiveInteger t); [|by left].
    destruct (mapGet _ _); [|by left].
    destruct (negb _); by left.
Qed.

(** With a goal post that the batch does not lie below, a call comes down
    to the merge of the observed interval. *)
Lemma runReconcile_merges ctx nextPage c g newest rest initial st :
  goalPostId c = Some g -> isSafePositiveInteger g = true ->
  (initial = true -> g <= newest) ->
  runReconcile ctx nextPage c (newest :: rest) initial st =
  reconcileWitnessed c (newest :: rest) g
    (observedInterval ctx c (newest :: rest) initial)
    (updateAdjacencyHints ctx nextPage) (saveCursors ctx) st.
Proof.
  intros Hg Hsafe Hpath.
  destruct (last (newest :: rest)) as [oldest|] eqn:Hlast;
    [|by apply last_None in Hlast].
  unfold runReconcile, reconcile, observedInterval. rewrite Hg, Hsafe, Hlast.
  rewrite bool_decide_eq_false_2 by done. rewrite andb_false_r.
  cbn [negb head default]. destruct initial; [|done].
  by destruct (Z.ltb_spec newest g); [specialize (Hpath eq_refl); lia|].
Qed.

(** C4: when [reconcile], called with a valid cursor and the post IDs the
    page enumerates, gets as far as merging the observed interval and finds
    the old goal post in the merged intervals, the ID it returns is the last
    ID of an oldest-to-newest scan of the post IDs that does not exceed the
    old goal post: the largest observed ID at or below it. *)
Theorem reached_goal_post_returns_best (where_ : location) (ctx : context)
    (nextPageTimestamp : option Z) (c : Cursors) (elemIds : list Z)
    (g newest : Z) (rest : list Z) (initial : bool) (st : storage)
    (resolved : Z) (c' : Cursors) (st' : storage) :
  initContext where_ = Some ctx ->
  validCursors (goalPostId c) (witnessedPostIds c) = true ->
  goalPostId c = Some g ->
  enumerateDashboardPostIds elemIds = Normal (newest :: rest) ->
  (initial = true -> g <= newest) ->
  indexOfIntervalContainingValue
    (addToSortedDisjointSafeIntegerIntervals (witnessedPostIds c)
       (observedInterval ctx c (newest :: rest) initial)).2 g <> -1 ->
  runReconcile ctx nextPageTimestamp c (newest :: rest) initial st
    = (Normal resolved, c', st') ->
  last (filter (fun p => p <= g) (reverse (newest :: rest))) = Some resolved /\
  resolved ∈ newest :: rest /\
  resolved <= g /\
  (forall p, p ∈ newest :: rest -> p <= g -> p <= resolved).
Proof.
  intros Hctx Hvalid Hg Henum Hpath Hreached Hrun.
  apply enumerateFrom_inv in Henum as (_ & _ & Hsorted & _).
  rewrite Hg in Hvalid. pose proof Hvalid as [Hsafe Hw]%validCursors_Some.
  destruct (last (newest :: rest)) as [oldest|] eqn:Hlast;
    [|by apply last_None in Hlast].
  rewrite (runReconcile_merges _ _ _ g) in Hrun by done.
  (* the lower endpoint of the observed interval is the oldest post ID *)
  assert ((observedInterval ctx c (newest :: rest) initial).1 = oldest \/
          covers (witnessedPostIds c)
                 (observedInterval ctx c (newest :: rest) initial).1) as Hlower.
  { unfold observedInterval. rewrite Hlast. cbn [head default].
    destruct initial; [by apply (augment_lower where_)|by left]. }
  destruct (observedInterval ctx c (newest :: rest) initial) as [lo hi].
  cbn [fst] in Hlower. unfold reconcileWitnessed in Hrun.
  destruct (Z.leb_spec hi lo) as [|Hlt]; [done|].
  assert (oldest <= g) as Holdest.
  { apply index_found_covers in Hreached.
    apply add_covers in Hreached as [Hcov|Hin]; [| |by eapply areSortedFrom_None|done].
    - by apply validCursors_not_covered in Hcov.
    - destruct Hlower as [<-|(a & b & Hab & Hlo)]; [lia|].
      pose proof (validCursors_above _ _ _ _ Hvalid Hab). lia. }
  destruct (addToSortedDisjointSafeIntegerIntervals _ _) as [updated intervals].
  cbn [snd] in Hreached. apply Z.eqb_neq in Hreached. rewrite Hreached in Hrun.
  destruct (negb _); [done|].
  destruct intervals as [|[? newGoal] remaining]; [done|].
  unfold saveAndReturn in Hrun.
  destruct (saveCursors ctx _ st) as [[[]|?] ?]; [|done].
  inversion Hrun; subst resolved.
  by apply (bestGoalPost_spec _ _ oldest).
Qed.

Lemma reached_goal_post_returns_best_witness :
  last (filter (fun p => p <= 100) (reverse [103; 102; 101; 100; 99])) = Some 100 /\
  100 ∈ [103; 102; 101; 100; 99] /\
  100 <= 100 /\
  (forall p, p ∈ [103; 102; 101; 100; 99] -> p <= 100 -> p <= 100).
Proof.
  apply (reached_goal_post_returns_best (Dashboard true None None)
           (dashboardContext true None None) None
           (MkCursors (Some 100) [(103, 105)] []) [103; 102; 101; 100; 99]
           100 103 [102; 101; 100; 99] false
           (<[dashboardKey := StoredCursors (Some 100) [(103, 105)]]> ∅)
           100 (MkCursors (Some 105) [] [])
           (<[dashboardKey := StoredCursors (Some 105) []]>
              (<[dashboardKey := StoredCursors (Some 100) [(103, 105)]]> ∅))).
  - reflexivity.
  - reflexivity.
  - reflexivity.
  - reflexivity.
  - discriminate.
  - vm_compute. discriminate.
  - reflexivity.
Defined.

(** When the merged set contains the goal post of a valid cursor, the merge
    changed the set and the merged interval is the first one, from the lower
    endpoint of the new interval up. *)
Lemma add_reaches_goal g w lo hi :
  validCursors (Some g) w = true -> lo < hi ->
  isSafeInteger lo = true -> isSafeInteger hi = true ->
  covers (addToSortedDisjointSafeIntegerIntervals w (lo, hi)).2 g ->
  exists nhi post,
    addToSortedDisjointSafeIntegerIntervals w (lo, hi) = (true, (lo, nhi) :: post) /\
    lo <= g <= nhi /\
    areSortedFrom (Some nhi) post = true /\ isSafeInteger nhi = true.
Proof.
  intros Hv Hlt Hlo Hhi Hcov.
  pose proof Hv as [Hsafe Hw]%validCursors_Some.
  pose proof (areSortedFrom_None _ _ Hw) as Hw0.
  assert (forall a b, (a, b) ∈ w -> g < a /\ a < b) as Habove
    by (intros a b; apply (areSortedFrom_above g w); done).
  destruct (add_shape None w lo hi Hw0 Hlt) as
    (pre & mid & post & nlo & nhi & Hl & Hres & Hpre & Hle1 & Hle2 & Hmid
     & Hfirst & Hlast & Hsorted).
  specialize (Hsorted Hlo Hhi eq_refl).
  assert (nlo <= g <= nhi) as Hg.
  { rewrite Hres in Hcov. destruct Hcov as (x & y & Hin & Hx).
    apply elem_of_app in Hin as [Hin|[Heq|Hin]%elem_of_cons].
    - destruct (Habove x y); [|lia]. rewrite Hl. apply elem_of_app. by left.
    - by inversion Heq; subst.
    - destruct (Habove x y); [|lia].
      rewrite Hl. apply elem_of_app. right. apply elem_of_app. by right. }
  assert (nlo = lo) as ->.
  { destruct Hfirst as [?|(b & Hin & _)]; [done|].
    destruct (Habove nlo b); [|lia].
    rewrite Hl. apply elem_of_app. right. apply elem_of_app. by left. }
  assert (pre = []) as ->.
  { destruct pre as [|[a b] pre']; [done|].
    assert ((a, b) ∈ (a, b) :: pre') as Hin by (apply elem_of_cons; by left).
    pose proof (Hpre a b Hin).
    destruct (Habove a b); [|lia]. rewrite Hl. apply elem_of_app. by left. }
  cbn [app] in Hres, Hsorted.
  apply areSortedFrom_cons in Hsorted as (_ & Hnhi & _ & _ & Hpost).
  exists nhi, post. split_and!; try done; try lia.
  destruct (addToSortedDisjointSafeIntegerIntervals w (lo, hi)) as [updated res] eqn:Hadd.
  cbn [snd] in Hres. subst res. destruct updated; [done|].
  assert ((addToSortedDisjointSafeIntegerIntervals w (lo, hi)).1 = false) as Hfalse
    by (by rewrite Hadd).
  apply (add_unchanged_covered None) in Hfalse as (a & b & Hin & Ha & _); [|done..].
  destruct (Habove a b Hin). lia.
Qed.

(** On the dashboard a call that reaches the goal post does return: the
    upper endpoint of the merged first interval becomes the goal post, that
    interval leaves the set, and the cursor is persisted. *)
Lemma dashboard_reached_resolves e pn sp nextPage c g newest rest initial st lo hi :
  validCursors (goalPostId c) (witnessedPostIds c) = true ->
  goalPostId c = Some g ->
  (initial = true -> g <= newest) ->
  observedInterval (dashboardContext e pn sp) c (newest :: rest) initial = (lo, hi) ->
  lo < hi -> isSafeInteger lo = true -> isSafeInteger hi = true ->
  indexOfIntervalContainingValue
    (addToSortedDisjointSafeIntegerIntervals (witnessedPostIds c) (lo, hi)).2 g <> -1 ->
  exists newGoal remaining,
    addToSortedDisjointSafeIntegerIntervals (witnessedPostIds c) (lo, hi)
      = (true, (lo, newGoal) :: remaining) /\
    runReconcile (dashboardContext e pn sp) nextPage c (newest :: rest) initial st
      = (Normal (bestGoalPost (newest :: rest) g),
         MkCursors (Some newGoal) remaining (adjacencyHints c),
         <[dashboardKey := StoredCursors (Some newGoal) remaining]> st).
Proof.
  intros Hvalid Hg Hpath Hobs Hlt Hlo Hhi Hreached.
  rewrite Hg in Hvalid. pose proof Hvalid as [Hsafe _]%validCursors_Some.
  apply index_found_covers in Hreached.
  destruct (add_reaches_goal g _ lo hi Hvalid Hlt Hlo Hhi Hreached)
    as (nhi & post & Hadd & Hin & Hpost & Hnhi).
  exists nhi, post. split; [done|].
  rewrite (runReconcile_merges _ _ _ g) by done. rewrite Hobs.
  unfold reconcileWitnessed. destruct (Z.leb_spec hi lo) as [|_]; [lia|].
  rewrite Hadd. unfold indexOfIntervalContainingValue. cbn [indexLoop].
  destruct (Z.ltb_spec nhi g) as [|_]; [lia|].
  destruct (Z.ltb_spec g lo) as [|_]; [lia|].
  cbn [Z.eqb andb negb].
  assert (validCursors (Some nhi) post = true) as Hv'.
  { apply validCursors_Some. split; [|done].
    apply isSafePositiveInteger_spec. apply isSafePositiveInteger_spec in Hsafe.
    apply isSafeInteger_spec in Hnhi. lia. }
  unfold dashboardContext, saveAndReturn, dashboardSaveCursors.
  cbn [updateAdjacencyHints saveCursors goalPostId witnessedPostIds adjacencyHints].
  by rewrite Hv'.
Qed.

(** In a tagged view a call that reaches the goal post while other witnessed
    intervals remain does not return an ID: [updateAdjacencyHints] records
    the oldest post of the batch, which the remaining intervals do not
    contain, and [saveCursors] refuses the cursors. *)
Example tagged_reached_then_save_refused :
  runReconcile (taggedContext true "Zm9v" (Some 0)) (Some 1500000000)
    (MkCursors (Some 100) [(103, 105); (120, 130)] [])
    [103; 102; 101; 100; 99] false ∅
  = (Throw "Attempted to save invalid cursors",
     MkCursors (Some 105) [(120, 130)] [(1500000000, 99)], ∅).
Proof. reflexivity. Qed.

(** ** A batch above the goal post *)

Lemma forallb_mapSet (P : Z * Z -> bool) m k v :
  forallb P m = true -> P (k, v) = true -> forallb P (mapSet m k v) = true.
Proof.
  intros Hm Hkv. induction m as [|[k' v'] rest IH]; simpl in *.
  - by rewrite Hkv.
  - apply andb_true_iff in Hm as [Hhd Htl].
    destruct (k' =? k) eqn:Hk; simpl.
    + apply Z.eqb_eq in Hk as ->. by rewrite Hkv, Htl.
    + by rewrite Hhd, IH.
Qed.

Lemma validHint_mono w w' hint :
  areSortedDisjointSafeIntegerIntervals w' = true ->
  (forall v, covers w v -> covers w' v) ->
  validHint w hint = true -> validHint w' hint = true.
Proof.
  intros Hsorted Hcov. destruct hint as [ts postId]. unfold validHint.
  destruct (negb _); [done|].
  destruct (Z.eqb_spec (indexOfIntervalContainingValue w postId) (-1)) as [|Hidx];
    [done|]. intros _.
  apply index_found_covers, Hcov, (index_covered _ _ Hsorted) in Hidx.
  by apply Z.eqb_neq in Hidx as ->.
Qed.

Lemma forallb_validHint_mono w w' hints :
  areSortedDisjointSafeIntegerIntervals w' = true ->
  (forall v, covers w v -> covers w' v) ->
  forallb (validHint w) hints = true -> forallb (validHint w') hints = true.
Proof.
  intros Hsorted Hcov. induction hints as [|hint rest IH]; [done|]. simpl.
  rewrite !andb_true_iff. intros [Hhd Htl]. split; [|by apply IH].
  by apply (validHint_mono w).
Qed.

Lemma validTaggedCursors_hints g w h :
  validTaggedCursors g w h = true -> forallb (validHint w) h = true.
Proof.
  unfold validTaggedCursors. destruct (negb _); [done|].
  destruct (length w =? 0)%nat; [|done].
  by destruct h.
Qed.

(** [updateAdjacencyHints] of a tagged view keeps a cursor valid when the
    oldest post of the batch is a witnessed post. *)
Lemma taggedUpdate_valid nextPage g w h postIds oldest :
  validCursors g w = true -> forallb (validHint w) h = true ->
  last postIds = Some oldest -> isSafePositiveInteger oldest = true ->
  indexOfIntervalContainingValue w oldest <> -1 ->
  exists h',
    taggedUpdateAdjacencyHints nextPage (MkCursors g w h) postIds = MkCursors g w h' /\
    validTaggedCursors g w h' = true.
Proof.
  intros Hvalid Hhints Hlast Holdest Hidx.
  unfold taggedUpdateAdjacencyHints, validTaggedCursors.
  cbn [goalPostId witnessedPostIds adjacencyHints]. rewrite Hvalid, Hlast. cbn [negb].
  destruct (length w =? 0)%nat; [by exists []|].
  destruct nextPage as [ts|]; [|by exists h].
  destruct (isSafePositiveInteger ts) eqn:Hts; [|by exists h].
  eexists. split; [done|]. apply forallb_mapSet; [done|].
  unfold validHint. rewrite Hts, Holdest. cbn [andb negb].
  by apply Z.eqb_neq in Hidx as ->.
Qed.

Lemma validFor_valid where_ c :
  validFor where_ c = true ->
  validCursors (goalPostId c) (witnessedPostIds c) = true.
Proof.
  destruct where_; simpl; [done| |done]. apply validTaggedCursors_valid.
Qed.

(** When the observed interval lies above the goal post, [reconcile] merges
    it, leaves the goal post alone and defers; the cursor stays valid, and
    it is persisted when the merge changed the set. *)
(** An insertion that reports a change has changed the set. *)
Lemma add_changed_differs prev l lo hi :
  areSortedFrom prev l = true -> lo < hi ->
  (addToSortedDisjointSafeIntegerIntervals l (lo, hi)).1 = true ->
  (addToSortedDisjointSafeIntegerIntervals l (lo, hi)).2 <> l.
Proof.
  intros Hs Hlt Hflag Heq.
  destruct (add_shape prev l lo hi Hs Hlt) as
    (pre & mid & post & nlo & nhi & _ & Hres & _ & Hle1 & Hle2 & _).
  assert ((addToSortedDisjointSafeIntegerIntervals l (lo, hi)).1 = false) as Hfalse.
  { apply (add_unchanged_covered prev); [done|done|].
    exists nlo, nhi. split; [|done].
    rewrite <- Heq, Hres. apply elem_of_app. right. apply elem_of_cons. by left. }
  congruence.
Qed.

Lemma reconcileWitnessed_defers where_ ctx nextPage c g postIds oldest lo hi st :
  initContext where_ = Some ctx ->
  validFor where_ c = true -> goalPostId c = Some g ->
  g < lo -> lo < hi -> isSafeInteger lo = true -> isSafeInteger hi = true ->
  last postIds = Some oldest -> isSafePositiveInteger oldest = true ->
  lo <= oldest <= hi ->
  exists c' st',
    reconcileWitnessed c postIds g (lo, hi) (updateAdjacencyHints ctx nextPage)
      (saveCursors ctx) st = (Normal RECONCILE_DEFER, c', st') /\
    goalPostId c' = Some g /\
    witnessedPostIds c'
      = (addToSortedDisjointSafeIntegerIntervals (witnessedPostIds c) (lo, hi)).2 /\
    validFor where_ c' = true /\
    (witnessedPostIds c' <> witnessedPostIds c ->
     saveCursors ctx c' st = (Normal tt, st')) /\
    (witnessedPostIds c' = witnessedPostIds c -> c' = c /\ st' = st).
Proof.
  intros Hctx Hvalid Hg Hglo Hlt Hlo Hhi Hlast Holdest Hin.
  pose proof (validFor_valid _ _ Hvalid) as Hv. rewrite Hg in Hv.
  pose proof Hv as [Hsafe Hw]%validCursors_Some.
  pose proof (areSortedFrom_None _ _ Hw) as Hw0.
  assert (areSortedFrom (Some g)
            (addToSortedDisjointSafeIntegerIntervals (witnessedPostIds c) (lo, hi)).2
          = true) as Hw'.
  { destruct (add_shape (Some g) _ lo hi Hw Hlt) as
      (pre & mid & post & nlo & nhi & _ & -> & _ & _ & _ & _ & _ & _ & Hsorted).
    apply Hsorted; try done. simpl. by apply Z.ltb_lt. }
  assert (forall v, covers (witnessedPostIds c) v ->
            covers (addToSortedDisjointSafeIntegerIntervals (witnessedPostIds c) (lo, hi)).2 v)
    as Hmono.
  { intros v Hcov. apply add_covers; [done|done|by left]. }
  assert (indexOfIntervalContainingValue
            (addToSortedDisjointSafeIntegerIntervals (witnessedPostIds c) (lo, hi)).2 g
          = -1) as Hidx.
  { apply index_not_covered. intros [Hcov|?]%add_covers; [|lia|done|done].
    by apply validCursors_not_covered in Hcov. }
  assert (indexOfIntervalContainingValue
            (addToSortedDisjointSafeIntegerIntervals (witnessedPostIds c) (lo, hi)).2
            oldest <> -1) as Hold.
  { apply index_covered; [by eapply areSortedFrom_None|].
    apply add_covers; [done|done|by right]. }
  assert ((addToSortedDisjointSafeIntegerIntervals (witnessedPostIds c) (lo, hi)).1 = false ->
          (addToSortedDisjointSafeIntegerIntervals (witnessedPostIds c) (lo, hi)).2
          = witnessedPostIds c) as Hsame.
  { unfold addToSortedDisjointSafeIntegerIntervals. by destruct (negb _). }
  pose proof (add_changed_differs _ _ lo hi Hw Hlt) as Hdiff.
  unfold reconcileWitnessed. destruct (Z.leb_spec hi lo) as [|_]; [lia|].
  destruct (addToSortedDisjointSafeIntegerIntervals _ _) as [updated intervals].
  cbn [fst snd] in *. rewrite Hidx. cbn [Z.eqb Pos.eqb].
  assert (validCursors (Some g) intervals = true) as Hv' by (by apply validCursors_Some).
  destruct updated.
  - destruct where_ as [e pn sp|e tag ts|]; inversion Hctx; subst ctx; clear Hctx.
    + unfold dashboardContext, saveAndReturn, dashboardSaveCursors.
      cbn [updateAdjacencyHints saveCursors goalPostId witnessedPostIds validFor].
      rewrite Hg, Hv'. cbn [negb]. do 2 eexists. split_and!; try done.
      * intros _. cbn [goalPostId witnessedPostIds]. by rewrite Hv'.
      * intros Heq. by destruct (Hdiff eq_refl).
    + unfold taggedContext.
      cbn [updateAdjacencyHints saveCursors validFor] in *. rewrite Hg.
      destruct (taggedUpdate_valid nextPage (Some g) intervals (adjacencyHints c)
                  postIds oldest) as (h' & -> & Hvh); try done.
      { apply (forallb_validHint_mono (witnessedPostIds c));
          [by eapply areSortedFrom_None|done|].
        by eapply validTaggedCursors_hints. }
      unfold saveAndReturn, taggedSaveCursors.
      cbn [goalPostId witnessedPostIds adjacencyHints]. rewrite Hvh. cbn [negb].
      do 2 eexists. split_and!; try done.
      * intros _. cbn [goalPostId witnessedPostIds adjacencyHints]. by rewrite Hvh.
      * intros Heq. by destruct (Hdiff eq_refl).
  - rewrite (Hsame eq_refl). do 2 eexists. split_and!; try done.
    intros _. by destruct c.
Qed.

Lemma first_page_identity where_ ctx :
  initContext where_ = Some ctx -> isFirstPage ctx = true ->
  forall c witnessed, augmentWithAdjacencyHints ctx c witnessed = witnessed.
Proof.
  intros Hctx Hfirst c witnessed.
  destruct where_ as [e pn sp|e tag ts|]; inversion Hctx; subst ctx; clear Hctx.
  - unfold dashboardContext in *. cbn [isFirstPage augmentWithAdjacencyHints] in *.
    by rewrite Hfirst.
  - unfold taggedContext in *. cbn [isFirstPage augmentWithAdjacencyHints] in *.
    destruct ts as [t|]; [|done]. simpl in Hfirst.
    by destruct (isSafePositiveInteger t).
Qed.




(** * Further properties of the interval set *)

(** Of two intervals of a sorted set, the one that starts first ends before
    the other starts. *)
Lemma areSortedFrom_ordered prev l a b c d :
  areSortedFrom prev l = true -> (a, b) ∈ l -> (c, d) ∈ l -> a < c -> b < c.
Proof.
  intros Hs Hab Hcd Hac.
  destruct (Z.lt_ge_cases b c) as [|Hge]; [done|].
  destruct (areSortedFrom_safe _ _ _ _ Hs Hcd) as (_ & _ & ?).
  assert ((a, b) = (c, d)) as Heq
    by (apply (areSortedFrom_disjoint prev l); try done; lia).
  inversion Heq. lia.
Qed.

(** After an insertion, [indexOfIntervalContainingValue] finds exactly the
    values it found before and the values of the new interval. *)
Theorem insert_then_find (S : list interval) (lo hi v : Z) :
  areSortedDisjointSafeIntegerIntervals S = true ->
  isSafeInteger lo = true -> isSafeInteger hi = true -> lo < hi ->
  indexOfIntervalContainingValue
    (addToSortedDisjointSafeIntegerIntervals S (lo, hi)).2 v <> -1 <->
  indexOfIntervalContainingValue S v <> -1 \/ lo <= v <= hi.
Proof.
  intros Hs Hlo Hhi Hlt.
  assert (areSortedDisjointSafeIntegerIntervals
            (addToSortedDisjointSafeIntegerIntervals S (lo, hi)).2 = true) as Hs'.
  { destruct (add_shape None S lo hi Hs Hlt) as
      (pre & mid & post & nlo & nhi & _ & -> & _ & _ & _ & _ & _ & _ & Hsorted).
    by apply Hsorted. }
  split.
  - intros [Hcov|Hin]%index_found_covers%add_covers; [|by right|done..].
    left. by apply index_covered.
  - intros Hor. apply index_covered; [done|]. apply add_covers; [done..|].
    destruct Hor as [Hidx|?]; [left|by right]. by apply index_found_covers.
Qed.

Lemma insert_then_find_witness :
  indexOfIntervalContainingValue
    (addToSortedDisjointSafeIntegerIntervals [(1, 2); (7, 8)] (2, 5)).2 4 <> -1 <->
  indexOfIntervalContainingValue [(1, 2); (7, 8)] 4 <> -1 \/ 2 <= 4 <= 5.
Proof.
  apply (insert_then_find [(1, 2); (7, 8)] 2 5 4); [reflexivity..|lia].
Defined.

(** Inserting the same interval a second time reports no change and leaves
    the set as the first insertion made it. *)
Theorem insert_twice_unchanged (S : list interval) (lo hi : Z) :
  areSortedDisjointSafeIntegerIntervals S = true ->
  isSafeInteger lo = true -> isSafeInteger hi = true -> lo < hi ->
  addToSortedDisjointSafeIntegerIntervals
    (addToSortedDisjointSafeIntegerIntervals S (lo, hi)).2 (lo, hi)
  = (false, (addToSortedDisjointSafeIntegerIntervals S (lo, hi)).2).
Proof. apply add_idempotent. Qed.

Lemma insert_twice_unchanged_witness :
  addToSortedDisjointSafeIntegerIntervals
    (addToSortedDisjointSafeIntegerIntervals [(1, 2); (4, 5); (9, 12)] (2, 4)).2 (2, 4)
  = (false, (addToSortedDisjointSafeIntegerIntervals [(1, 2); (4, 5); (9, 12)] (2, 4)).2).
Proof.
  apply (insert_twice_unchanged [(1, 2); (4, 5); (9, 12)] 2 4); [reflexivity..|lia].
Defined.

(** The intervals of the set that do not meet the new one go over into the
    result as they are, and the rest of the result is the merged interval. *)
Lemma add_partition (S : list interval) (lo hi : Z) :
  areSortedDisjointSafeIntegerIntervals S = true ->
  isSafeInteger lo = true -> isSafeInteger hi = true -> lo < hi ->
  (forall a b, (a, b) ∈ S -> b < lo \/ hi < a ->
     (a, b) ∈ (addToSortedDisjointSafeIntegerIntervals S (lo, hi)).2) /\
  (forall a b, (a, b) ∈ (addToSortedDisjointSafeIntegerIntervals S (lo, hi)).2 ->
     ((a, b) ∈ S /\ (b < lo \/ hi < a)) \/ (a <= lo /\ hi <= b)) /\
  (exists a b, (a, b) ∈ (addToSortedDisjointSafeIntegerIntervals S (lo, hi)).2 /\
               a <= lo /\ hi <= b).
Proof.
  intros Hs Hlo Hhi Hlt.
  destruct (add_shape None S lo hi Hs Hlt) as
    (pre & mid & post & nlo & nhi & Hl & Hres & Hpre & Hle1 & Hle2 & Hmid
     & Hfirst & Hlast & Hsorted).
  specialize (Hsorted Hlo Hhi eq_refl).
  apply areSortedFrom_app in Hsorted as [Hpost _].
  assert (forall a b, (a, b) ∈ mid -> (a, b) ∈ S) as HmidS.
  { intros a b Hin. rewrite Hl. apply elem_of_app. right. apply elem_of_app. by left. }
  assert (forall a b, (a, b) ∈ S -> a < b) as Hlt'.
  { intros a b Hin. by destruct (areSortedFrom_safe _ _ _ _ Hs Hin) as (_ & _ & ?). }
  assert (forall a b, (a, b) ∈ mid -> lo <= b /\ a <= hi) as Hmeet.
  { intros a b Hin. destruct (Hmid _ _ Hin) as [Hna Hbn].
    pose proof (Hlt' _ _ (HmidS _ _ Hin)) as Hab. split.
    - destruct (Z.le_gt_cases lo b) as [|Hb]; [done|].
      destruct Hfirst as [->|(b0 & Hin0 & Hb0)]; [lia|].
      pose proof (Hlt' _ _ (HmidS _ _ Hin0)).
      destruct (Z.eq_dec a nlo) as [->|Hne].
      + assert ((nlo, b) = (nlo, b0)) as Heq
          by (apply (areSortedFrom_disjoint None S); auto; lia).
        inversion Heq. lia.
      + assert (b0 < a); [|lia].
        apply (areSortedFrom_ordered None S nlo b0 a b); auto. lia.
    - destruct (Z.le_gt_cases a hi) as [|Ha]; [done|].
      destruct Hlast as [->|(a0 & Hin0 & Ha0)]; [lia|].
      pose proof (Hlt' _ _ (HmidS _ _ Hin0)).
      destruct (Z.eq_dec a a0) as [->|Hne].
      + assert ((a0, b) = (a0, nhi)) as Heq
          by (apply (areSortedFrom_disjoint None S); auto; lia).
        inversion Heq. lia.
      + assert (nhi < a); [|lia].
        apply (areSortedFrom_ordered None S a0 nhi a b); auto. lia. }
  rewrite Hres. split_and!.
  - intros a b Hin Hout. rewrite Hl in Hin.
    apply elem_of_app in Hin as [Hin|[Hin|Hin]%elem_of_app].
    + apply elem_of_app. by left.
    + destruct (Hmeet _ _ Hin). lia.
    + apply elem_of_app. right. apply elem_of_cons. by right.
  - intros a b [Hin|[Heq|Hin]%elem_of_cons]%elem_of_app.
    + left. split; [rewrite Hl; apply elem_of_app; by left|].
      left. by apply (Hpre a b).
    + inversion Heq; subst. by right.
    + left. split.
      * rewrite Hl. apply elem_of_app. right. apply elem_of_app. by right.
      * right. pose proof (areSortedFrom_above _ _ _ _ Hpost Hin). lia.
  - exists nlo, nhi. split; [|done]. apply elem_of_app. right. apply elem_of_cons. by left.
Qed.

(** An insertion keeps, unchanged, every interval that does not meet the new
    one; and every interval of the result is such an interval of the old set
    or the one merged interval, which spans the new interval. *)
Theorem insert_keeps_other_intervals (S : list interval) (lo hi : Z) :
  areSortedDisjointSafeIntegerIntervals S = true ->
  isSafeInteger lo = true -> isSafeInteger hi = true -> lo < hi ->
  (forall a b, (a, b) ∈ S -> b < lo \/ hi < a ->
     (a, b) ∈ (addToSortedDisjointSafeIntegerIntervals S (lo, hi)).2) /\
  (forall a b, (a, b) ∈ (addToSortedDisjointSafeIntegerIntervals S (lo, hi)).2 ->
     ((a, b) ∈ S /\ (b < lo \/ hi < a)) \/ (a <= lo /\ hi <= b)) /\
  (exists a b, (a, b) ∈ (addToSortedDisjointSafeIntegerIntervals S (lo, hi)).2 /\
               a <= lo /\ hi <= b).
Proof. apply add_partition. Qed.

Lemma insert_keeps_other_intervals_witness :
  (1, 2) ∈ (addToSortedDisjointSafeIntegerIntervals [(1, 2); (4, 5); (9, 12)] (5, 7)).2.
Proof.
  destruct (insert_keeps_other_intervals [(1, 2); (4, 5); (9, 12)] 5 7) as [Hkept _];
    [reflexivity..|lia|].
  apply Hkept; [|lia]. apply elem_of_cons. by left.
Defined.

(** On any list of intervals, sorted or not, [indexOfIntervalContainingValue]
    returns -1 or the index of an interval of the list that contains the
    value. *)
Theorem index_result_in_range (S : list interval) (v : Z) :
  indexOfIntervalContainingValue S v = -1 \/
  exists (n : nat) a b,
    indexOfIntervalContainingValue S v = Z.of_nat n /\
    (n < length S)%nat /\ S !! n = Some (a, b) /\ a <= v <= b.
Proof.
  unfold indexOfIntervalContainingValue.
  destruct (indexLoop_sound S v 0) as [?|(n & a & b & Hn & Hv & Heq)]; [by left|].
  right. exists n, a, b. rewrite Heq. split_and!; try done; try lia.
  by eapply lookup_lt_Some.
Qed.

Lemma areSortedFrom_pairwise l : forall prev,
  (forall a b, (a, b) ∈ l ->
     isSafeInteger a = true /\ isSafeInteger b = true /\ a < b /\
     ltFromPrev prev a = true) ->
  (forall (i j : nat) a b c d, (i < j)%nat ->
     l !! i = Some (a, b) -> l !! j = Some (c, d) -> b < c) ->
  areSortedFrom prev l = true.
Proof.
  induction l as [|[a b] rest IH]; intros prev Hall Hpair; [done|].
  destruct (Hall a b) as (Ha & Hb & Hab & Hp); [apply elem_of_cons; by left|].
  apply areSortedFrom_cons. split_and!; try done.
  apply IH.
  - intros c d Hin. destruct (Hall c d) as (Hc & Hd & Hcd & _);
      [apply elem_of_cons; by right|].
    split_and!; try done. simpl. apply Z.ltb_lt.
    apply list_elem_of_lookup_1 in Hin as [k Hk].
    by apply (Hpair 0%nat (S k) a b c d); [lia|..].
  - intros i j a' b' c d Hij Hi Hj.
    by apply (Hpair (S i) (S j) a' b' c d); [lia|..].
Qed.

(** What the validity predicate of interval sets says: every endpoint is a
    safe integer, every interval has its lower endpoint below its upper one,
    and an interval that comes earlier in the list ends before any later one
    starts. *)
Theorem sorted_disjoint_iff_pairwise (S : list interval) :
  areSortedDisjointSafeIntegerIntervals S = true <->
  (forall a b, (a, b) ∈ S ->
     isSafeInteger a = true /\ isSafeInteger b = true /\ a < b) /\
  (forall (i j : nat) a b c d, (i < j)%nat ->
     S !! i = Some (a, b) -> S !! j = Some (c, d) -> b < c).
Proof.
  split.
  - intros Hs. split; [intros a b; by apply (areSortedFrom_safe None S)|].
    unfold areSortedDisjointSafeIntegerIntervals in Hs. revert Hs.
    generalize (@None Z). induction S as [|[x y] rest IH]; intros prev Hs i j a b c d Hij Hi Hj.
    + done.
    + apply areSortedFrom_cons in Hs as (_ & _ & _ & Hxy & Hrest).
      destruct j as [|j]; [lia|]. simpl in Hj.
      assert ((c, d) ∈ rest) as Hcd by (by eapply list_elem_of_lookup_2).
      destruct i as [|i].
      * inversion Hi; subst. by destruct (areSortedFrom_above _ _ _ _ Hrest Hcd).
      * simpl in Hi. apply (IH (Some y) Hrest i j a b c d); [lia|done..].
  - intros [Hall Hpair]. apply areSortedFrom_pairwise; [|done].
    intros a b Hin. destruct (Hall a b Hin) as (? & ? & ?). by split_and!.
Qed.

(** * Further properties of the enumeration of posts *)

Lemma enumerateFrom_ok elemIds : forall prev,
  Forall (fun p => isSafePositiveInteger p = true) elemIds ->
  StronglySorted Z.gt elemIds ->
  (forall p q, prev = Some p -> q ∈ elemIds -> q < p) ->
  enumerateFrom prev elemIds = Normal elemIds.
Proof.
  induction elemIds as [|postId rest IH]; intros prev Hall Hsorted Hprev; [done|].
  inversion Hall as [|? ? Hsafe Hall']; subst.
  apply StronglySorted_inv in Hsorted as [Hrest Hgt].
  cbn [enumerateFrom]. rewrite Hsafe. cbn [negb].
  assert (geFromPrev postId prev = false) as ->.
  { destruct prev as [p|]; [|done]. simpl.
    assert (postId < p) by (apply (Hprev p); [done|apply elem_of_cons; by left]).
    by destruct (Z.leb_spec p postId); [lia|]. }
  rewrite (IH (Some postId)); try done.
  intros p q [= <-] Hq. rewrite Forall_forall in Hgt. specialize (Hgt q Hq). lia.
Qed.

(** [enumerateDashboardPostIds] returns the IDs of the post elements as they
    are, exactly when all of them are positive safe integers and each is
    greater than all that follow; on any other page it throws. *)
Theorem enumerate_succeeds_iff (elemIds : list Z) :
  (enumerateDashboardPostIds elemIds = Normal elemIds <->
   Forall (fun p => isSafePositiveInteger p = true) elemIds /\
   StronglySorted Z.gt elemIds) /\
  (enumerateDashboardPostIds elemIds = Normal elemIds \/
   exists message, enumerateDashboardPostIds elemIds = Throw message).
Proof.
  split.
  - split.
    + intros (_ & Hall & Hsorted & _)%enumerateFrom_inv. split; [done|].
      apply (Sorted_StronglySorted _) in Hsorted.
      induction Hsorted as [|x l _ IH Hx]; constructor.
      * apply IH. by inversion Hall.
      * eapply Forall_impl; [exact Hx|]. unfold flip. intros; lia.
    + intros [Hall Hsorted]. by apply enumerateFrom_ok.
  - destruct (enumerateDashboardPostIds elemIds) as [postIds|message] eqn:Henum;
      [left|right; eauto].
    by apply enumerateFrom_inv in Henum as (-> & _).
Qed.

(** * Further properties of cursors and contexts *)

Lemma validHint_spec w ts postId :
  areSortedDisjointSafeIntegerIntervals w = true ->
  validHint w (ts, postId) = true <->
  isSafePositiveInteger ts = true /\ isSafePositiveInteger postId = true /\
  covers w postId.
Proof.
  intros Hs. unfold validHint.
  destruct (isSafePositiveInteger ts), (isSafePositiveInteger postId); cbn [andb negb];
    try (split; [done|by intros (? & ? & ?)]).
  destruct (Z.eqb_spec (indexOfIntervalContainingValue w postId) (-1)) as [Heq|Hne].
  - split; [done|]. intros (_ & _ & Hcov). by apply (index_covered _ _ Hs) in Hcov.
  - split; [|done]. intros _. split_and!; try done. by apply index_found_covers.
Qed.

Lemma tagged_cursors_valid_iff_hints g w h :
  validTaggedCursors g w h = true -> w = [] -> h = [].
Proof.
  unfold validTaggedCursors. destruct (negb _); [done|].
  intros Hv ->. simpl in Hv. by destruct h.
Qed.

(** What the validity check of tagged cursors adds to [validCursors]: no
    hint without a witnessed interval, and every hint maps a positive safe
    timestamp to a positive safe post ID that the witnessed intervals
    cover. *)
Theorem tagged_cursors_valid_iff (g : option Z) (w : list interval) (h : hintMap) :
  validTaggedCursors g w h = true <->
  validCursors g w = true /\
  (w = [] -> h = []) /\
  (forall ts postId, (ts, postId) ∈ h ->
     isSafePositiveInteger ts = true /\ isSafePositiveInteger postId = true /\
     covers w postId).
Proof.
  unfold validTaggedCursors.
  destruct (validCursors g w) eqn:Hv; cbn [negb]; [|by split; [|intros (? & _)]].
  destruct w as [|i w]; cbn [length Nat.eqb].
  - destruct h; simpl; split; try done.
    + intros _. split_and!; try done. intros ? ? Hin. by apply elem_of_nil in Hin.
    + intros (_ & Hnil & _). by specialize (Hnil eq_refl).
  - assert (areSortedDisjointSafeIntegerIntervals (i :: w) = true) as Hs.
    { destruct g as [g|]; [|done].
      apply validCursors_Some in Hv as [_ Hs]. by eapply areSortedFrom_None. }
    rewrite forallb_forall. split.
    + intros Hall. split_and!; try done. intros ts postId Hin.
      apply (validHint_spec _ _ _ Hs), Hall. by apply list_elem_of_In.
    + intros (_ & _ & Hall) [ts postId] Hin.
      apply (validHint_spec _ _ _ Hs), Hall. by apply list_elem_of_In.
Qed.

Lemma mapSet_fresh m k v :
  k ∉ m.*1 -> mapSet m k v = m ++ [(k, v)].
Proof.
  induction m as [|[k' v'] rest IH]; intros Hk; [done|]. simpl in *.
  apply not_elem_of_cons in Hk as [Hne Hk].
  destruct (Z.eqb_spec k' k) as [->|_]; [done|]. by rewrite IH.
Qed.

Lemma newMap_from acc entries :
  NoDup (acc ++ entries).*1 ->
  fold_left (fun m e => mapSet m e.1 e.2) entries acc = acc ++ entries.
Proof.
  revert acc. induction entries as [|[k v] rest IH]; intros acc Hnd; simpl.
  - by rewrite app_nil_r.
  - rewrite mapSet_fresh.
    + rewrite IH; rewrite <-app_assoc; done.
    + rewrite fmap_app in Hnd. apply NoDup_app in Hnd as (_ & Hdisj & _).
      intros Hin. apply (Hdisj k Hin). simpl. apply elem_of_cons. by left.
Qed.

(** [new Map(entries)] of entries with distinct keys holds these entries in
    their order. *)
Lemma newMap_nodup entries : NoDup entries.*1 -> newMap entries = entries.
Proof. intros Hnd. unfold newMap. by rewrite newMap_from. Qed.

(** Round trip: what [saveCursors] of a context wrote, [loadCursors] of that
    context reads back: the goal post, the witnessed intervals and, in a
    tagged view, the hints (a [Map] has distinct keys). *)
Theorem save_then_load (where_ : location) (ctx : context) (c : Cursors)
    (st st' : storage) :
  initContext where_ = Some ctx ->
  NoDup (adjacencyHints c).*1 ->
  saveCursors ctx c st = (Normal tt, st') ->
  loadCursors ctx st'
  = Normal (MkCursors (goalPostId c) (witnessedPostIds c)
              (match where_ with
               | Tagged _ _ _ => adjacencyHints c
               | _ => []
               end)).
Proof.
  intros Hctx Hnd Hsave.
  destruct where_ as [e pn sp|e tag ts|]; inversion Hctx; subst ctx; clear Hctx.
  - unfold dashboardContext in *. cbn [saveCursors loadCursors] in *.
    unfold dashboardSaveCursors in Hsave. unfold dashboardLoadCursors.
    destruct (validCursors _ _) eqn:Hv; [|done]. inversion Hsave; subst st'.
    by rewrite lookup_insert_eq, Hv.
  - unfold taggedContext in *. cbn [saveCursors loadCursors] in *.
    unfold taggedSaveCursors in Hsave. unfold taggedLoadCursors.
    destruct (validTaggedCursors _ _ _) eqn:Hv; [|done]. inversion Hsave; subst st'.
    by rewrite lookup_insert_eq, newMap_nodup, Hv.
Qed.

Lemma save_then_load_witness :
  loadCursors (taggedContext true "Zm9v" (Some 0))
    (<[taggedKey "Zm9v" := StoredTaggedCursors (Some 100) [(103, 105)] [(1500000000, 103)]]> ∅)
  = Normal (MkCursors (Some 100) [(103, 105)] [(1500000000, 103)]).
Proof.
  apply (save_then_load (Tagged true "Zm9v" (Some 0)) (taggedContext true "Zm9v" (Some 0))
           (MkCursors (Some 100) [(103, 105)] [(1500000000, 103)]) ∅).
  - reflexivity.
  - apply NoDup_singleton.
  - reflexivity.
Defined.

Lemma taggedKey_not_dashboardKey tag : taggedKey tag <> dashboardKey.
Proof. unfold taggedKey, dashboardKey. simpl. discriminate. Qed.

Lemma taggedKey_inj tag1 tag2 : taggedKey tag1 = taggedKey tag2 -> tag1 = tag2.
Proof. unfold taggedKey. simpl. by intros [=]. Qed.

(** Contexts do not interfere: a [saveCursors] on one page, whether it
    succeeds or throws, leaves what [loadCursors] returns on a page of another
    context as it was. *)
Theorem contexts_do_not_interfere (where1 where2 : location) (ctx1 ctx2 : context)
    (c : Cursors) (st : storage) :
  initContext where1 = Some ctx1 -> initContext where2 = Some ctx2 ->
  ~ sameContext where1 where2 ->
  loadCursors ctx2 (saveCursors ctx1 c st).2 = loadCursors ctx2 st.
Proof.
  intros H1 H2 Hdiff.
  assert (forall key1 key2 v (res : completion unit * storage),
            key1 <> key2 ->
            res = (Normal tt, <[key1 := v]> st) \/ res.2 = st ->
            res.2 !! key2 = st !! key2) as Hother.
  { intros key1 key2 v res Hne [->| ->]; [|done]. by apply lookup_insert_ne. }
  destruct where1 as [e1 pn1 sp1|e1 tag1 ts1|], where2 as [e2 pn2 sp2|e2 tag2 ts2|];
    inversion H1; inversion H2; subst ctx1 ctx2; simpl in Hdiff; try done.
  - unfold dashboardContext, taggedContext. cbn [saveCursors loadCursors].
    unfold taggedLoadCursors.
    rewrite (Hother dashboardKey (taggedKey tag2)
               (StoredCursors (goalPostId c) (witnessedPostIds c))); [done| |].
    + intros Heq. by apply (taggedKey_not_dashboardKey tag2).
    + unfold dashboardSaveCursors. destruct (negb _); [by right|by left].
  - unfold dashboardContext, taggedContext. cbn [saveCursors loadCursors].
    unfold dashboardLoadCursors.
    rewrite (Hother (taggedKey tag1) dashboardKey
               (StoredTaggedCursors (goalPostId c) (witnessedPostIds c) (adjacencyHints c)));
      [done|apply taggedKey_not_dashboardKey|].
    unfold taggedSaveCursors. destruct (negb _); [by right|by left].
  - unfold taggedContext. cbn [saveCursors loadCursors].
    unfold taggedLoadCursors.
    rewrite (Hother (taggedKey tag1) (taggedKey tag2)
               (StoredTaggedCursors (goalPostId c) (witnessedPostIds c) (adjacencyHints c)));
      [done| |].
    + intros Heq. by apply Hdiff, taggedKey_inj.
    + unfold taggedSaveCursors. destruct (negb _); [by right|by left].
Qed.

Lemma contexts_do_not_interfere_witness :
  loadCursors (dashboardContext true None None)
    (saveCursors (taggedContext true "Zm9v" (Some 0)) (MkCursors (Some 7) [] [])
       (<[dashboardKey := StoredCursors (Some 100) [(103, 105)]]> ∅)).2
  = loadCursors (dashboardContext true None None)
      (<[dashboardKey := StoredCursors (Some 100) [(103, 105)]]> ∅).
Proof.
  apply (contexts_do_not_interfere (Tagged true "Zm9v" (Some 0)) (Dashboard true None None)
           (taggedContext true "Zm9v" (Some 0)) (dashboardContext true None None));
    [reflexivity|reflexivity|].
  intros [].
Defined.

(** Hint augmentation returns the interval it was given, or replaces one of
    its endpoints by a post ID that the witnessed intervals cover; on the
    first page it returns the interval it was given. *)
Theorem augment_moves_one_endpoint_to_witnessed_post (where_ : location) (ctx : context)
    (c : Cursors) (oldest newest : Z) :
  initContext where_ = Some ctx ->
  (augmentWithAdjacencyHints ctx c (oldest, newest) = (oldest, newest) \/
   exists postId, covers (witnessedPostIds c) postId /\
     (augmentWithAdjacencyHints ctx c (oldest, newest) = (oldest, postId) \/
      augmentWithAdjacencyHints ctx c (oldest, newest) = (postId, newest))) /\
  (isFirstPage ctx = true ->
   augmentWithAdjacencyHints ctx c (oldest, newest) = (oldest, newest)).
Proof.
  intros Hctx. split; [|intros Hfirst; by apply (first_page_identity where_)].
  destruct where_ as [e pn sp|e tag ts|]; inversion Hctx; subst ctx; clear Hctx.
  - unfold dashboardContext. cbn [augmentWithAdjacencyHints].
    destruct (negb _); [by left|].
    destruct sp as [signed|]; [|by left].
    destruct (isSafeInteger signed && negb (signed =? 0)); [|by left].
    destruct (0 <? signed);
      (destruct (negb _) eqn:Hidx; [|by left]);
      right; exists (Z.abs signed);
      (split; [apply index_found_covers; apply negb_true_iff in Hidx;
               by apply Z.eqb_neq in Hidx|]); [by left|by right].
  - unfold taggedContext. cbn [augmentWithAdjacencyHints].
    destruct ts as [t|]; [|by left].
    destruct (isSafePositiveInteger t); [|by left].
    destruct (mapGet _ _) as [postId|]; [|by left].
    destruct (negb _) eqn:Hidx; [|by left].
    right. exists postId. split; [|by left].
    apply index_found_covers. apply negb_true_iff in Hidx. by apply Z.eqb_neq in Hidx.
Qed.

Lemma augment_moves_one_endpoint_to_witnessed_post_witness :
  augmentWithAdjacencyHints (dashboardContext true (Some 2) (Some (-104)))
    (MkCursors (Some 50) [(103, 105)] []) (90, 99) = (90, 99) \/
  exists postId, covers [(103, 105)] postId /\
    (augmentWithAdjacencyHints (dashboardContext true (Some 2) (Some (-104)))
       (MkCursors (Some 50) [(103, 105)] []) (90, 99) = (90, postId) \/
     augmentWithAdjacencyHints (dashboardContext true (Some 2) (Some (-104)))
       (MkCursors (Some 50) [(103, 105)] []) (90, 99) = (postId, 99)).
Proof.
  exact (proj1 (augment_moves_one_endpoint_to_witnessed_post
                  (Dashboard true (Some 2) (Some (-104)))
                  (dashboardContext true (Some 2) (Some (-104)))
                  (MkCursors (Some 50) [(103, 105)] []) 90 99 eq_refl)).
Defined.

(** * Properties of the storage upgrade *)

Lemma version_accepted v :
  isSafePositiveInteger v && (v <=? LATEST_STORAGE_VERSION) = true <-> v = 1 \/ v = 2.
Proof.
  rewrite andb_true_iff, isSafePositiveInteger_spec, Z.leb_le.
  unfold LATEST_STORAGE_VERSION, MAX_SAFE_INTEGER. lia.
Qed.

(** [upgradeStorage] goes through exactly on a storage with no version key
    or with the integer 1 or 2 under it; on any other stored version, an
    integer or not, it throws and leaves the storage as it is; a storage at
    version 2 it leaves as it is, too. *)
Theorem upgradeStorage_accepts_known_versions (s : extensionStorage) :
  ((upgradeStorage s).1 = Normal tt <->
   storedVersion s = None \/ storedVersion s = Some (IntegerValue 1) \/
   storedVersion s = Some (IntegerValue 2)) /\
  ((upgradeStorage s).1 <> Normal tt ->
   upgradeStorage s = (Throw "Unexpected storage version", s)) /\
  (storedVersion s = Some (IntegerValue 2) -> upgradeStorage s = (Normal tt, s)).
Proof.
  unfold upgradeStorage.
  destruct (storedVersion s) as [[v|]|] eqn:Hs; cbn [default from_option id].
  - destruct (isSafePositiveInteger v && _) eqn:Hv; cbn [negb].
    + apply version_accepted in Hv. split_and!.
      * split; [intros _|by destruct (_ <? _)]. right.
        destruct Hv as [->| ->]; [by left|by right].
      * by destruct (_ <? _).
      * by intros [= ->].
    + split_and!; try done.
      * split; [done|]. intros [?|[[= ->]|[= ->]]]; done.
      * intros [= ->]. done.
  - split_and!; try done. split; [done|]. by intros [?|[?|?]].
  - change (negb (isSafePositiveInteger 1 && (1 <=? LATEST_STORAGE_VERSION))) with false.
    change (1 <? LATEST_STORAGE_VERSION) with true. cbv iota.
    split_and!; try done. split; [by left|done].
Qed.

(** After a successful [upgradeStorage] the storage is at the latest
    version, and a second [upgradeStorage] changes nothing. *)
Theorem upgradeStorage_idempotent (s s' : extensionStorage) :
  upgradeStorage s = (Normal tt, s') ->
  storedVersion s' = Some (IntegerValue LATEST_STORAGE_VERSION) /\
  upgradeStorage s' = (Normal tt, s').
Proof.
  unfold upgradeStorage at 1.
  destruct (default (IntegerValue 1) (storedVersion s)) as [v|] eqn:Hd; [|done].
  destruct (isSafePositiveInteger _ && _) eqn:Hv; cbn [negb]; [|done].
  apply version_accepted in Hv.
  destruct (Z.ltb_spec v LATEST_STORAGE_VERSION) as [Hlt|Hge].
  - intros [= <-]. by split.
  - intros [= <-].
    assert (storedVersion s = Some (IntegerValue 2)) as Hs.
    { destruct (storedVersion s) as [[w|]|]; simpl in Hd; inversion Hd; subst;
        unfold LATEST_STORAGE_VERSION in *; [do 2 f_equal|]; lia. }
    split; [done|]. unfold upgradeStorage. by rewrite Hs.
Qed.

Lemma upgradeStorage_idempotent_witness :
  storedVersion
    (upgradeStorage (MkExtensionStorage None (Some (IntegerValue 100)) ∅)).2
    = Some (IntegerValue LATEST_STORAGE_VERSION) /\
  upgradeStorage (upgradeStorage (MkExtensionStorage None (Some (IntegerValue 100)) ∅)).2
    = (Normal tt, (upgradeStorage (MkExtensionStorage None (Some (IntegerValue 100)) ∅)).2).
Proof.
  apply (upgradeStorage_idempotent (MkExtensionStorage None (Some (IntegerValue 100)) ∅)).
  reflexivity.
Defined.

(** Migration of the version 1 format, on a storage with no version key or
    with the integer 1 under it: [upgradeStorage] goes through, removes the
    key ["last_post"] and sets the version to 2.  If ["last_post"] held a
    positive safe integer, the dashboard cursors are afterwards such that
    [loadCursors] of the dashboard accepts them, with that post as the goal
    post and no witnessed interval, and no other cursors key has changed.
    If it held anything else, or nothing, no cursors key changes at all. *)
Theorem upgradeStorage_migrates_last_post (s : extensionStorage) :
  storedVersion s = None \/ storedVersion s = Some (IntegerValue 1) ->
  (upgradeStorage s).1 = Normal tt /\
  storedLastPost (upgradeStorage s).2 = None /\
  storedVersion (upgradeStorage s).2 = Some (IntegerValue 2) /\
  (forall p, storedLastPost s = Some (IntegerValue p) -> isSafePositiveInteger p = true ->
     dashboardLoadCursors (storedCursors (upgradeStorage s).2)
       = Normal (MkCursors (Some p) [] []) /\
     forall key, key <> dashboardKey ->
       storedCursors (upgradeStorage s).2 !! key = storedCursors s !! key) /\
  ((forall p, storedLastPost s = Some (IntegerValue p) ->
      isSafePositiveInteger p = false) ->
   storedCursors (upgradeStorage s).2 = storedCursors s).
Proof.
  intros Hv1.
  assert (default (IntegerValue 1) (storedVersion s) = IntegerValue 1) as Hd
    by (by destruct Hv1 as [-> | ->]).
  unfold upgradeStorage. rewrite Hd.
  change (negb (isSafePositiveInteger 1 && (1 <=? LATEST_STORAGE_VERSION))) with false.
  change (1 <? LATEST_STORAGE_VERSION) with true.
  change (1 <=? 1) with true. cbv iota.
  cbn [storedVersion storedLastPost storedCursors fst snd].
  split_and!; try done.
  - by destruct (storedLastPost s) as [[p|]|]; [destruct (isSafePositiveInteger p)| |].
  - intros p -> Hp. rewrite Hp. cbn [storedCursors]. split.
    + unfold dashboardLoadCursors. rewrite lookup_insert_eq.
      by rewrite (validCursors_fresh _ Hp).
    + intros key Hne. by apply lookup_insert_ne.
  - intros Hbad. destruct (storedLastPost s) as [[p|]|]; [|done|done].
    by rewrite (Hbad p eq_refl).
Qed.

Lemma upgradeStorage_migrates_last_post_witness :
  dashboardLoadCursors
    (storedCursors
       (upgradeStorage
          (MkExtensionStorage (Some (IntegerValue 1)) (Some (IntegerValue 100)) ∅)).2)
  = Normal (MkCursors (Some 100) [] []).
Proof.
  destruct (upgradeStorage_migrates_last_post
              (MkExtensionStorage (Some (IntegerValue 1)) (Some (IntegerValue 100)) ∅))
    as (_ & _ & _ & Hmigrated & _); [right; reflexivity|].
  destruct (Hmigrated 100) as [Hload _]; [reflexivity|reflexivity|].
  exact Hload.
Defined.

(** * Further properties of the reconciliation *)

Lemma updateAdjacencyHints_keeps where_ ctx nextPage c postIds :
  initContext where_ = Some ctx ->
  goalPostId (updateAdjacencyHints ctx nextPage c postIds) = goalPostId c /\
  witnessedPostIds (updateAdjacencyHints ctx nextPage c postIds) = witnessedPostIds c.
Proof.
  intros Hctx.
  destruct where_ as [e pn sp|e tag ts|]; inversion Hctx; subst ctx; clear Hctx; [done|].
  unfold taggedContext. cbn [updateAdjacencyHints]. unfold taggedUpdateAdjacencyHints.
  destruct (_ =? _)%nat; [done|].
  destruct nextPage as [t|]; [|done]. destruct (last postIds); [|done].
  by destruct (isSafePositiveInteger t).
Qed.

Lemma saveCursors_validFor where_ ctx c st st' :
  initContext where_ = Some ctx -> saveCursors ctx c st = (Normal tt, st') ->
  validFor where_ c = true.
Proof.
  intros Hctx Hsave.
  destruct where_ as [e pn sp|e tag ts|]; inversion Hctx; subst ctx; clear Hctx.
  - unfold dashboardContext in Hsave. cbn [saveCursors] in Hsave.
    unfold dashboardSaveCursors in Hsave. simpl.
    by destruct (validCursors _ _).
  - unfold taggedContext in Hsave. cbn [saveCursors] in Hsave.
    unfold taggedSaveCursors in Hsave. simpl.
    by destruct (validTaggedCursors _ _ _).
Qed.

Lemma saveAndReturn_Normal save c v st v' c' st' :
  saveAndReturn save c v st = (Normal v', c', st') ->
  v' = v /\ c' = c /\ save c st = (Normal tt, st').
Proof.
  unfold saveAndReturn. destruct (save c st) as [[[]|m] st0]; [|done].
  by intros [= <- <- <-].
Qed.

(** The ways in which the part of [reconcile] after the [if (initial)] block
    returns. *)
Lemma reconcileWitnessed_Normal c postIds g witnessed upd save st v c' st' :
  reconcileWitnessed c postIds g witnessed upd save st = (Normal v, c', st') ->
  (v = RECONCILE_DEFER /\ st' = st /\
   c' = MkCursors (goalPostId c) (witnessedPostIds c) (adjacencyHints c)) \/
  (v = RECONCILE_DEFER /\
   c' = upd (MkCursors (goalPostId c)
               (addToSortedDisjointSafeIntegerIntervals (witnessedPostIds c) witnessed).2
               (adjacencyHints c)) postIds /\
   save c' st = (Normal tt, st')) \/
  (v = bestGoalPost postIds g /\
   exists lower newGoal remaining,
     (addToSortedDisjointSafeIntegerIntervals (witnessedPostIds c) witnessed).2
       = (lower, newGoal) :: remaining /\
     lower <= g <= newGoal /\
     c' = upd (MkCursors (Some newGoal) remaining (adjacencyHints c)) postIds /\
     save c' st = (Normal tt, st')).
Proof.
  unfold reconcileWitnessed. destruct witnessed as [oldest newest].
  destruct (newest <=? oldest); [done|].
  destruct (addToSortedDisjointSafeIntegerIntervals _ _) as [updated intervals] eqn:Hadd.
  cbn [snd].
  destruct (Z.eqb_spec (indexOfIntervalContainingValue intervals g) (-1)) as [_|Hidx].
  - destruct updated.
    + intros (-> & -> & Hsave)%saveAndReturn_Normal. right. by left.
    + intros [= <- <- <-]. left. split_and!; try done.
      assert ((addToSortedDisjointSafeIntegerIntervals (witnessedPostIds c)
                 (oldest, newest)).1 = false) as Hfalse by (by rewrite Hadd).
      apply add_unchanged_same in Hfalse. rewrite Hadd in Hfalse.
      by inversion Hfalse.
  - destruct (negb _) eqn:Hguard; [done|].
    apply negb_false_iff, andb_true_iff in Hguard as [_ Hzero%Z.eqb_eq].
    destruct intervals as [|[lower newGoal] remaining]; [done|].
    intros (-> & -> & Hsave)%saveAndReturn_Normal. right. right.
    split; [done|]. exists lower, newGoal, remaining. split_and!; try done;
      unfold indexOfIntervalContainingValue in Hzero; cbn [indexLoop] in Hzero;
      (destruct (Z.ltb_spec newGoal g);
         [destruct (indexLoop_sound remaining g (0 + 1)) as [Hm|(n & ? & ? & _ & _ & Hn)];
            lia|]);
      destruct (Z.ltb_spec g lower); lia.
Qed.

Lemma bestLoop_in ids : forall g best, bestLoop ids g best ∈ best :: ids.
Proof.
  induction ids as [|p rest IH]; intros g best; cbn [bestLoop].
  - apply elem_of_cons. by left.
  - destruct (g <? p); [apply elem_of_cons; by left|].
    apply elem_of_cons. right. apply IH.
Qed.

Lemma bestGoalPost_in postIds g : postIds <> [] -> bestGoalPost postIds g ∈ postIds.
Proof.
  intros Hne. unfold bestGoalPost.
  destruct (reverse postIds) as [|oldest newer] eqn:Hrev.
  - apply (f_equal reverse) in Hrev. rewrite reverse_involutive in Hrev. done.
  - apply elem_of_reverse. rewrite Hrev. apply bestLoop_in.
Qed.

(** What the value [reconcile] returns means, for the post IDs of a page:
    [RECONCILE_ABORT] comes with the cursors and the storage untouched;
    [RECONCILE_DEFER] comes with the goal post untouched; any other value is
    the ID of a post of the batch, returned after the cursors were
    persisted. *)
Theorem reconcile_return_value (where_ : location) (ctx : context)
    (nextPageTimestamp : option Z) (c : Cursors) (elemIds postIds : list Z)
    (initial : bool) (st : storage) (v : Z) (c' : Cursors) (st' : storage) :
  initContext where_ = Some ctx ->
  enumerateDashboardPostIds elemIds = Normal postIds ->
  runReconcile ctx nextPageTimestamp c postIds initial st = (Normal v, c', st') ->
  (v = RECONCILE_ABORT /\ c' = c /\ st' = st) \/
  (v = RECONCILE_DEFER /\ goalPostId c' = goalPostId c /\
   (st' = st \/ saveCursors ctx c' st = (Normal tt, st'))) \/
  (isSafePositiveInteger v = true /\ v ∈ postIds /\
   saveCursors ctx c' st = (Normal tt, st')).
Proof.
  intros Hctx Henum Hrun.
  apply enumerateFrom_inv in Henum as (_ & Hall & _).
  rewrite Forall_forall in Hall.
  assert (forall range g,
            reconcileWitnessed c postIds g range
              (updateAdjacencyHints ctx nextPageTimestamp) (saveCursors ctx) st
            = (Normal v, c', st') -> postIds <> [] ->
            (v = RECONCILE_DEFER /\ goalPostId c' = goalPostId c /\
             (st' = st \/ saveCursors ctx c' st = (Normal tt, st'))) \/
            (isSafePositiveInteger v = true /\ v ∈ postIds /\
             saveCursors ctx c' st = (Normal tt, st'))) as Hmerge.
  { intros range g Hw Hne.
    apply reconcileWitnessed_Normal in Hw
      as [(-> & -> & ->)|[(-> & -> & Hsave)|(-> & _ & _ & _ & _ & _ & _ & Hsave)]].
    - left. split_and!; try done. by left.
    - left. split_and!; try done; [|by right].
      by destruct (updateAdjacencyHints_keeps _ _ nextPageTimestamp
                     (MkCursors (goalPostId c)
                        (addToSortedDisjointSafeIntegerIntervals (witnessedPostIds c) range).2
                        (adjacencyHints c)) postIds Hctx) as [-> _].
    - right. pose proof (bestGoalPost_in postIds g Hne). split_and!; try done.
      by apply Hall. }
  unfold runReconcile, reconcile in Hrun.
  destruct postIds as [|newest rest]; [left; by inversion Hrun|].
  assert (isSafePositiveInteger newest = true /\ newest ∈ newest :: rest) as [Hsafe Hin].
  { split; [apply Hall|]; apply elem_of_cons; by left. }
  destruct (initial && _).
  { apply saveAndReturn_Normal in Hrun as (-> & -> & Hsave). right. by right. }
  destruct (goalPostId c) as [g|] eqn:Hg; [|done].
  destruct (negb _); [done|].
  destruct initial; [|right; eapply (Hmerge _ g); [exact Hrun|done]].
  destruct (newest <? g); [|right; eapply (Hmerge _ g); [exact Hrun|done]].
  destruct (isFirstPage ctx).
  - apply saveAndReturn_Normal in Hrun as (-> & -> & Hsave). right. by right.
  - left. by inversion Hrun.
Qed.

Lemma reconcile_return_value_witness :
  (-1 = RECONCILE_ABORT /\ MkCursors (Some 100) [(103, 105)] [] = MkCursors (Some 100) [] [] /\
   (<[dashboardKey := StoredCursors (Some 100) [(103, 105)]]> ∅ : storage) = ∅) \/
  (-1 = RECONCILE_DEFER /\
   goalPostId (MkCursors (Some 100) [(103, 105)] []) = goalPostId (MkCursors (Some 100) [] []) /\
   ((<[dashboardKey := StoredCursors (Some 100) [(103, 105)]]> ∅ : storage) = ∅ \/
    saveCursors (dashboardContext true None None) (MkCursors (Some 100) [(103, 105)] []) ∅
    = (Normal tt, <[dashboardKey := StoredCursors (Some 100) [(103, 105)]]> ∅))) \/
  (isSafePositiveInteger (-1) = true /\ -1 ∈ [105; 104; 103] /\
   saveCursors (dashboardContext true None None) (MkCursors (Some 100) [(103, 105)] []) ∅
   = (Normal tt, <[dashboardKey := StoredCursors (Some 100) [(103, 105)]]> ∅)).
Proof.
  apply (reconcile_return_value (Dashboard true None None) (dashboardContext true None None)
           None (MkCursors (Some 100) [] []) [105; 104; 103] [105; 104; 103] true ∅);
    reflexivity.
Defined.

(** A call of [reconcile] that returns leaves the cursors object valid for
    its context, as the next call expects it (the listener of [run] goes on
    with the same object). *)
Theorem reconcile_keeps_cursors_valid (where_ : location) (ctx : context)
    (nextPageTimestamp : option Z) (c : Cursors) (postIds : list Z)
    (initial : bool) (st : storage) (v : Z) (c' : Cursors) (st' : storage) :
  initContext where_ = Some ctx ->
  validFor where_ c = true ->
  runReconcile ctx nextPageTimestamp c postIds initial st = (Normal v, c', st') ->
  validFor where_ c' = true.
Proof.
  intros Hctx Hvalid Hrun.
  assert (forall range g,
            reconcileWitnessed c postIds g range
              (updateAdjacencyHints ctx nextPageTimestamp) (saveCursors ctx) st
            = (Normal v, c', st') -> validFor where_ c' = true) as Hmerge.
  { intros range g Hw.
    apply reconcileWitnessed_Normal in Hw
      as [(_ & _ & ->)|[(_ & _ & Hsave)|(_ & _ & _ & _ & _ & _ & _ & Hsave)]].
    - exact Hvalid.
    - exact (saveCursors_validFor _ _ _ _ _ Hctx Hsave).
    - exact (saveCursors_validFor _ _ _ _ _ Hctx Hsave). }
  unfold runReconcile, reconcile in Hrun.
  destruct postIds as [|newest rest]; [by inversion Hrun; subst|].
  destruct (initial && _).
  { apply saveAndReturn_Normal in Hrun as (_ & <- & Hsave).
    exact (saveCursors_validFor _ _ _ _ _ Hctx Hsave). }
  destruct (goalPostId c) as [g|] eqn:Hg; [|done].
  destruct (negb _); [done|].
  destruct initial; [|by eapply Hmerge].
  destruct (newest <? g); [|by eapply Hmerge].
  destruct (isFirstPage ctx).
  - apply saveAndReturn_Normal in Hrun as (_ & <- & Hsave).
    exact (saveCursors_validFor _ _ _ _ _ Hctx Hsave).
  - by inversion Hrun; subst.
Qed.

Lemma reconcile_keeps_cursors_valid_witness :
  validFor (Tagged true "Zm9v" (Some 0))
    (MkCursors (Some 100) [(103, 105)] [(1500000000, 103)]) = true.
Proof.
  apply (reconcile_keeps_cursors_valid (Tagged true "Zm9v" (Some 0))
           (taggedContext true "Zm9v" (Some 0)) (Some 1500000000)
           (MkCursors (Some 100) [] []) [105; 104; 103] true ∅ RECONCILE_DEFER
           (MkCursors (Some 100) [(103, 105)] [(1500000000, 103)])
           (<[taggedKey "Zm9v" := StoredTaggedCursors (Some 100) [(103, 105)]
                                    [(1500000000, 103)]]> ∅));
    reflexivity.
Defined.

(** The goal post only moves forward: whatever a call of [reconcile] does,
    returning or throwing, a goal post that was set is afterwards set to a
    post ID that is not smaller; the one exception is the reset on the
    initial pass on the first page, for a batch below the goal post. *)
Theorem goal_post_moves_forward (where_ : location) (ctx : context)
    (nextPageTimestamp : option Z) (c : Cursors) (postIds : list Z)
    (initial : bool) (st : storage) (g : Z)
    (r : completion Z) (c' : Cursors) (st' : storage) :
  initContext where_ = Some ctx ->
  goalPostId c = Some g ->
  (initial = true -> isFirstPage ctx = true ->
   forall newest, head postIds = Some newest -> g <= newest) ->
  runReconcile ctx nextPageTimestamp c postIds initial st = (r, c', st') ->
  exists g', goalPostId c' = Some g' /\ g <= g'.
Proof.
  intros Hctx Hg Hreset Hrun.
  assert (forall c0 v, exists res,
            saveAndReturn (saveCursors ctx) c0 v st = (res.1, c0, res.2)) as Hsave.
  { intros c0 v. unfold saveAndReturn.
    destruct (saveCursors ctx c0 st) as [[[]|m] st0]; by eexists (_, _). }
  assert (forall range,
            reconcileWitnessed c postIds g range
              (updateAdjacencyHints ctx nextPageTimestamp) (saveCursors ctx) st
            = (r, c', st') -> exists g', goalPostId c' = Some g' /\ g <= g') as Hmerge.
  { intros [oldest newest]. unfold reconcileWitnessed.
    destruct (newest <=? oldest); [intros [= <- <- <-]; exists g; split; [done|lia]|].
    destruct (addToSortedDisjointSafeIntegerIntervals _ _) as [updated intervals].
    destruct (Z.eqb_spec (indexOfIntervalContainingValue intervals g) (-1)) as [_|Hidx].
    - destruct updated.
      + destruct (Hsave (updateAdjacencyHints ctx nextPageTimestamp
                           (MkCursors (goalPostId c) intervals (adjacencyHints c)) postIds)
                    RECONCILE_DEFER) as [res ->].
        intros [= _ <- _].
        destruct (updateAdjacencyHints_keeps _ _ nextPageTimestamp
                    (MkCursors (goalPostId c) intervals (adjacencyHints c)) postIds Hctx)
          as [-> _].
        exists g. split; [done|lia].
      + intros [= <- <- <-]. exists g. split; [done|lia].
    - destruct (negb _) eqn:Hguard;
        [intros [= <- <- <-]; exists g; split; [done|lia]|].
      apply negb_false_iff, andb_true_iff in Hguard as [_ Hzero%Z.eqb_eq].
      destruct intervals as [|[lower newGoal] remaining];
        [intros [= <- <- <-]; exists g; split; [done|lia]|].
      cbn [adjacencyHints].
      destruct (Hsave (updateAdjacencyHints ctx nextPageTimestamp
                         (MkCursors (Some newGoal) remaining (adjacencyHints c)) postIds)
                  (bestGoalPost postIds g)) as [res ->].
      intros [= _ <- _].
      destruct (updateAdjacencyHints_keeps _ _ nextPageTimestamp
                  (MkCursors (Some newGoal) remaining (adjacencyHints c)) postIds Hctx)
        as [-> _].
      exists newGoal. split; [done|].
      unfold indexOfIntervalContainingValue in Hzero. cbn [indexLoop] in Hzero.
      destruct (Z.ltb_spec newGoal g); [|lia].
      destruct (indexLoop_sound remaining g (0 + 1)) as [Hm|(n & ? & ? & _ & _ & Hn)]; lia. }
  unfold runReconcile, reconcile in Hrun.
  destruct postIds as [|newest rest];
    [inversion Hrun; subst; exists g; split; [done|lia]|].
  rewrite Hg in Hrun. rewrite bool_decide_eq_false_2, andb_false_r in Hrun by done.
  destruct (negb _); [inversion Hrun; subst; exists g; split; [done|lia]|].
  destruct initial; [|by eapply Hmerge].
  destruct (Z.ltb_spec newest g) as [Hlt|_]; [|by eapply Hmerge].
  destruct (isFirstPage ctx).
  - specialize (Hreset eq_refl eq_refl newest eq_refl). lia.
  - inversion Hrun; subst. exists g. split; [done|lia].
Qed.

Lemma goal_post_moves_forward_witness :
  exists g', goalPostId (MkCursors (Some 105) [] []) = Some g' /\ 100 <= g'.
Proof.
  apply (goal_post_moves_forward (Dashboard true None None)
           (dashboardContext true None None) None
           (MkCursors (Some 100) [(103, 105)] []) [103; 102; 101; 100; 99] false
           (<[dashboardKey := StoredCursors (Some 100) [(103, 105)]]> ∅)
           100 (Normal 100) (MkCursors (Some 105) [] [])
           (<[dashboardKey := StoredCursors (Some 105) []]>
              (<[dashboardKey := StoredCursors (Some 100) [(103, 105)]]> ∅))).
  - reflexivity.
  - reflexivity.
  - discriminate.
  - reflexivity.
Defined.

Lemma isSafePositiveInteger_safe v :
  isSafePositiveInteger v = true -> isSafeInteger v = true.
Proof. unfold isSafePositiveInteger. by intros [? _]%andb_true_iff. Qed.

(** Without hints in play (a later pass, or the first page), the observed
    interval runs from the oldest to the newest post of the batch. *)
Lemma observedInterval_plain where_ ctx c newest rest oldest initial :
  initContext where_ = Some ctx ->
  last (newest :: rest) = Some oldest ->
  (initial = true -> isFirstPage ctx = true) ->
  observedInterval ctx c (newest :: rest) initial = (oldest, newest).
Proof.
  intros Hctx Hlast Hfirst. unfold observedInterval. rewrite Hlast. cbn [head default].
  destruct initial; [|done].
  apply (first_page_identity where_); [done|by apply Hfirst].
Qed.

(** The first visit: on the initial pass a valid cursor without a goal post
    gets the newest post of the page as its goal post and is persisted, with
    no witnessed interval; that post is the value returned.  On a later pass
    a cursor without a goal post makes [reconcile] throw. *)
Theorem first_visit_sets_goal_post (where_ : location) (ctx : context)
    (nextPageTimestamp : option Z) (c : Cursors) (elemIds : list Z)
    (newest : Z) (rest : list Z) (st : storage) :
  initContext where_ = Some ctx ->
  validFor where_ c = true ->
  goalPostId c = None ->
  enumerateDashboardPostIds elemIds = Normal (newest :: rest) ->
  (exists st',
     runReconcile ctx nextPageTimestamp c (newest :: rest) true st
       = (Normal newest, MkCursors (Some newest) [] (adjacencyHints c), st') /\
     saveCursors ctx (MkCursors (Some newest) [] (adjacencyHints c)) st = (Normal tt, st') /\
     loadCursors ctx st' = Normal (MkCursors (Some newest) [] [])) /\
  runReconcile ctx nextPageTimestamp c (newest :: rest) false st
    = (Throw "Invariants broken", c, st).
Proof.
  intros Hctx Hvalid Hg Henum.
  pose proof (validCursors_fresh _ (enumerate_newest_safe _ _ _ Henum)) as Hfresh.
  pose proof (validFor_valid _ _ Hvalid) as Hv. rewrite Hg in Hv.
  apply validCursors_None in Hv.
  unfold runReconcile, reconcile. rewrite Hg, Hv.
  rewrite bool_decide_eq_true_2 by done. cbn [andb]. split; [|done].
  destruct where_ as [e pn sp|e tag ts|]; inversion Hctx; subst ctx; clear Hctx.
  - unfold dashboardContext, saveAndReturn, dashboardSaveCursors, dashboardLoadCursors.
    cbn [saveCursors loadCursors goalPostId witnessedPostIds].
    rewrite Hfresh. cbn [negb]. eexists. split_and!; try done.
    by rewrite lookup_insert_eq, Hfresh.
  - assert (adjacencyHints c = []) as Hh.
    { simpl in Hvalid. by apply tagged_cursors_valid_iff_hints in Hvalid. }
    unfold taggedContext, saveAndReturn, taggedSaveCursors, taggedLoadCursors,
      validTaggedCursors.
    cbn [saveCursors loadCursors goalPostId witnessedPostIds adjacencyHints].
    rewrite Hh, Hfresh. cbn [negb length Nat.eqb]. eexists. split_and!; try done.
    rewrite lookup_insert_eq. cbn [newMap fold_left length Nat.eqb]. by rewrite Hfresh.
Qed.

Lemma first_visit_sets_goal_post_witness :
  (exists st',
     runReconcile (taggedContext true "Zm9v" (Some 0)) None (MkCursors None [] [])
       [50; 49; 48] true ∅
       = (Normal 50, MkCursors (Some 50) [] [], st') /\
     saveCursors (taggedContext true "Zm9v" (Some 0)) (MkCursors (Some 50) [] []) ∅
       = (Normal tt, st') /\
     loadCursors (taggedContext true "Zm9v" (Some 0)) st'
       = Normal (MkCursors (Some 50) [] [])) /\
  runReconcile (taggedContext true "Zm9v" (Some 0)) None (MkCursors None [] [])
    [50; 49; 48] false ∅
  = (Throw "Invariants broken", MkCursors None [] [], ∅).
Proof.
  exact (first_visit_sets_goal_post (Tagged true "Zm9v" (Some 0))
           (taggedContext true "Zm9v" (Some 0)) None (MkCursors None [] [])
           [50; 49; 48] 50 [49; 48] ∅ eq_refl eq_refl eq_refl eq_refl).
Defined.

(** A batch of at least two posts that are all newer than the goal post, on a
    later pass or on the first page: [reconcile] merges the interval from
    its oldest to its newest post into the witnessed intervals, leaves the
    goal post alone, keeps the cursors valid and returns [RECONCILE_DEFER];
    when the merge changed the witnessed intervals the cursors are
    persisted, and when it did not, neither the cursors nor the storage
    change. *)
Theorem batch_above_goal_post_defers (where_ : location) (ctx : context)
    (nextPageTimestamp : option Z) (c : Cursors) (elemIds : list Z)
    (g newest oldest : Z) (rest : list Z) (initial : bool) (st : storage) :
  initContext where_ = Some ctx ->
  validFor where_ c = true ->
  goalPostId c = Some g ->
  enumerateDashboardPostIds elemIds = Normal (newest :: rest) ->
  last (newest :: rest) = Some oldest ->
  g < oldest -> oldest < newest ->
  (initial = true -> isFirstPage ctx = true) ->
  exists c' st',
    runReconcile ctx nextPageTimestamp c (newest :: rest) initial st
      = (Normal RECONCILE_DEFER, c', st') /\
    goalPostId c' = Some g /\
    witnessedPostIds c'
      = (addToSortedDisjointSafeIntegerIntervals (witnessedPostIds c) (oldest, newest)).2 /\
    validFor where_ c' = true /\
    (witnessedPostIds c' <> witnessedPostIds c ->
     saveCursors ctx c' st = (Normal tt, st')) /\
    (witnessedPostIds c' = witnessedPostIds c -> c' = c /\ st' = st).
Proof.
  intros Hctx Hvalid Hg Henum Hlast Hgo Hon Hfirst.
  apply enumerateFrom_inv in Henum as (_ & Hall & _).
  rewrite Forall_forall in Hall.
  assert (isSafePositiveInteger newest = true) as Hnewest
    by (apply Hall, elem_of_cons; by left).
  assert (isSafePositiveInteger oldest = true) as Holdest
    by (by apply Hall, last_Some_elem_of).
  pose proof (validFor_valid _ _ Hvalid) as Hv. rewrite Hg in Hv.
  apply validCursors_Some in Hv as [Hsafe _].
  rewrite (runReconcile_merges _ _ _ g) by (try done; intros; lia).
  rewrite (observedInterval_plain where_ _ _ _ _ oldest) by done.
  apply (reconcileWitnessed_defers where_ ctx nextPageTimestamp c g _ oldest);
    try done; try lia; by apply isSafePositiveInteger_safe.
Qed.

Lemma batch_above_goal_post_defers_witness :
  exists c' st',
    runReconcile (taggedContext true "Zm9v" (Some 0)) (Some 1500000000)
      (MkCursors (Some 100) [(120, 130)] [(1400000000, 120)]) [110; 109; 108] false ∅
      = (Normal RECONCILE_DEFER, c', st') /\
    goalPostId c' = Some 100 /\
    witnessedPostIds c'
      = (addToSortedDisjointSafeIntegerIntervals [(120, 130)] (108, 110)).2 /\
    validFor (Tagged true "Zm9v" (Some 0)) c' = true /\
    (witnessedPostIds c' <> [(120, 130)] ->
     saveCursors (taggedContext true "Zm9v" (Some 0)) c' ∅ = (Normal tt, st')) /\
    (witnessedPostIds c' = [(120, 130)] ->
     c' = MkCursors (Some 100) [(120, 130)] [(1400000000, 120)] /\ st' = ∅).
Proof.
  apply (batch_above_goal_post_defers (Tagged true "Zm9v" (Some 0))
           (taggedContext true "Zm9v" (Some 0)) (Some 1500000000)
           (MkCursors (Some 100) [(120, 130)] [(1400000000, 120)])
           [110; 109; 108] 100 110 108 [109; 108] false ∅);
    try reflexivity; try lia; discriminate.
Defined.

(** Reaching the goal post on the dashboard, on a later pass or on the first
    page: for a batch of at least two posts whose oldest post is not newer
    and whose newest post is not older than the goal post, [reconcile]
    returns the largest post ID of the batch that does not exceed the goal
    post.  The insertion puts the merged interval first, from the oldest
    post of the batch up; its upper endpoint becomes the new goal post (the
    newest post of the batch, or the upper endpoint of an old interval that
    the batch runs into), that interval leaves the set, the intervals that
    stay are exactly the old ones above the new goal post, and the cursors
    are persisted. *)
Theorem dashboard_goal_post_reached (e : bool) (pn sp nextPageTimestamp : option Z)
    (c : Cursors) (elemIds : list Z) (g newest oldest : Z) (rest : list Z)
    (initial : bool) (st : storage) :
  validCursors (goalPostId c) (witnessedPostIds c) = true ->
  goalPostId c = Some g ->
  enumerateDashboardPostIds elemIds = Normal (newest :: rest) ->
  last (newest :: rest) = Some oldest ->
  oldest <= g <= newest -> oldest < newest ->
  (initial = true -> isFirstPage (dashboardContext e pn sp) = true) ->
  exists resolved newGoal remaining,
    runReconcile (dashboardContext e pn sp) nextPageTimestamp c (newest :: rest) initial st
      = (Normal resolved, MkCursors (Some newGoal) remaining (adjacencyHints c),
         <[dashboardKey := StoredCursors (Some newGoal) remaining]> st) /\
    resolved ∈ newest :: rest /\ resolved <= g /\
    (forall p, p ∈ newest :: rest -> p <= g -> p <= resolved) /\
    addToSortedDisjointSafeIntegerIntervals (witnessedPostIds c) (oldest, newest)
      = (true, (oldest, newGoal) :: remaining) /\
    newest <= newGoal /\
    (newGoal = newest \/
     exists a, (a, newGoal) ∈ witnessedPostIds c /\ a <= newest < newGoal) /\
    (forall a b, (a, b) ∈ remaining <-> (a, b) ∈ witnessedPostIds c /\ newGoal < a).
Proof.
  intros Hvalid Hg Henum Hlast Hin Hon Hfirst.
  apply enumerateFrom_inv in Henum as (_ & Hall & Hsorted & _).
  rewrite Forall_forall in Hall.
  assert (isSafeInteger newest = true) as Hnewest
    by (apply isSafePositiveInteger_safe, Hall, elem_of_cons; by left).
  assert (isSafeInteger oldest = true) as Holdest
    by (by apply isSafePositiveInteger_safe, Hall, last_Some_elem_of).
  pose proof Hvalid as Hv. rewrite Hg in Hv.
  pose proof Hv as [_ Hw%areSortedFrom_None]%validCursors_Some.
  pose proof (observedInterval_plain (Dashboard e pn sp) (dashboardContext e pn sp) c
                newest rest oldest initial eq_refl Hlast Hfirst) as Hobs.
  assert (covers (addToSortedDisjointSafeIntegerIntervals (witnessedPostIds c)
                    (oldest, newest)).2 g) as Hcov
    by (apply add_covers; [done..|by right]).
  destruct (add_partition (witnessedPostIds c) oldest newest Hw Holdest Hnewest Hon)
    as (_ & Hresult & (a & b & Hspan & Ha & Hb)).
  destruct (add_reaches_goal g _ oldest newest Hv Hon Holdest Hnewest Hcov)
    as (nhi & post & Hadd & Hgn & Hpost & _).
  destruct (dashboard_reached_resolves e pn sp nextPageTimestamp c g newest rest initial st
              oldest newest Hvalid Hg) as (newGoal & remaining & Hadd' & Hrun);
    try done; try (intros; lia).
  { rewrite Hadd. cbn [snd]. unfold indexOfIntervalContainingValue. cbn [indexLoop].
    destruct (Z.ltb_spec nhi g); [lia|]. destruct (Z.ltb_spec g oldest); [lia|done]. }
  rewrite Hadd in Hadd'. inversion Hadd'; subst newGoal remaining. clear Hadd'.
  rewrite Hadd in Hspan, Hresult. cbn [snd] in Hspan, Hresult.
  destruct (bestGoalPost_spec (newest :: rest) g oldest Hsorted Hlast) as (_ & H2 & H3 & H4);
    [lia|].
  assert (newest <= nhi) as Hnn.
  { apply elem_of_cons in Hspan as [[= -> ->]|Hspan]; [done|].
    pose proof (areSortedFrom_above _ _ _ _ Hpost Hspan). lia. }
  exists (bestGoalPost (newest :: rest) g), nhi, post. split_and!; try done.
  - destruct (add_shape None _ oldest newest Hw Hon) as
      (pre & mid & post' & nlo & nhi' & Hl & Hres & Hpre & _ & _ & _ & _ & Hlast' & _).
    rewrite Hadd in Hres. cbn [snd] in Hres.
    destruct pre as [|[a0 b0] pre'].
    + inversion Hres; subst nlo nhi' post'.
      destruct Hlast' as [->|(a0 & Ha0 & Hle)]; [by left|].
      destruct (Z.eq_dec nhi newest) as [->|Hne]; [by left|].
      right. exists a0. split; [|lia].
      rewrite Hl. apply elem_of_app. right. apply elem_of_app. by left.
    + inversion Hres; subst a0 b0.
      assert ((oldest, nhi) ∈ (oldest, nhi) :: pre') as Hfst by (apply elem_of_cons; by left).
      pose proof (Hpre _ _ Hfst). lia.
  - intros a' b'. split.
    + intros Hin'. pose proof (areSortedFrom_above _ _ _ _ Hpost Hin') as [Hab _].
      split; [|done].
      destruct (Hresult a' b') as [[? _]|[? _]]; [apply elem_of_cons; by right|done|lia].
    + intros [Hold Habove].
      destruct (add_partition (witnessedPostIds c) oldest newest Hw Holdest Hnewest Hon)
        as (Hkept & _ & _).
      specialize (Hkept a' b' Hold). rewrite Hadd in Hkept. cbn [snd] in Hkept.
      apply elem_of_cons in Hkept as [[= -> ->]|Hkept]; [lia|done|right; lia].
Qed.

Lemma dashboard_goal_post_reached_witness :
  exists resolved newGoal remaining,
    runReconcile (dashboardContext true None None) None
      (MkCursors (Some 100) [(103, 105); (120, 130)] []) [103; 102; 101; 99] false ∅
      = (Normal resolved, MkCursors (Some newGoal) remaining [],
         <[dashboardKey := StoredCursors (Some newGoal) remaining]> ∅) /\
    resolved ∈ [103; 102; 101; 99] /\ resolved <= 100 /\
    (forall p, p ∈ [103; 102; 101; 99] -> p <= 100 -> p <= resolved) /\
    addToSortedDisjointSafeIntegerIntervals [(103, 105); (120, 130)] (99, 103)
      = (true, (99, newGoal) :: remaining) /\
    103 <= newGoal /\
    (newGoal = 103 \/
     exists a, (a, newGoal) ∈ [(103, 105); (120, 130)] /\ a <= 103 < newGoal) /\
    (forall a b, (a, b) ∈ remaining <-> (a, b) ∈ [(103, 105); (120, 130)] /\ newGoal < a).
Proof.
  apply (dashboard_goal_post_reached true None None None
           (MkCursors (Some 100) [(103, 105); (120, 130)] []) [103; 102; 101; 99]
           100 103 99 [102; 101; 99] false ∅);
    try reflexivity; try lia; discriminate.
Defined.

Lemma mapSet_elem m k v : (k, v) ∈ mapSet m k v.
Proof.
  induction m as [|[k' v'] rest IH]; simpl.
  - apply elem_of_cons. by left.
  - destruct (Z.eqb_spec k' k) as [->|_]; apply elem_of_cons; [by left|by right].
Qed.

(** Reaching the goal post in a tagged view whose page has a link to the next
    page, while a witnessed interval above the batch remains: the hint that
    [updateAdjacencyHints] records for the oldest post of the batch points
    below the intervals that are left, [saveCursors] refuses the cursors,
    and the call throws without persisting anything. *)
Theorem tagged_reached_with_interval_left_throws (e : bool) (tag : string)
    (ts : option Z) (t : Z) (c : Cursors) (elemIds : list Z)
    (g newest oldest : Z) (rest : list Z) (initial : bool) (st : storage) (a b : Z) :
  validFor (Tagged e tag ts) c = true ->
  goalPostId c = Some g ->
  enumerateDashboardPostIds elemIds = Normal (newest :: rest) ->
  last (newest :: rest) = Some oldest ->
  oldest <= g <= newest -> oldest < newest ->
  (initial = true -> isFirstPage (taggedContext e tag ts) = true) ->
  isSafePositiveInteger t = true ->
  (a, b) ∈ witnessedPostIds c -> newest < a ->
  exists c',
    runReconcile (taggedContext e tag ts) (Some t) c (newest :: rest) initial st
    = (Throw "Attempted to save invalid cursors", c', st).
Proof.
  intros Hvalid Hg Henum Hlast Hin Hon Hfirst Ht Hab Hna.
  apply enumerateFrom_inv in Henum as (_ & Hall & _).
  rewrite Forall_forall in Hall.
  assert (isSafeInteger newest = true) as Hnewest
    by (apply isSafePositiveInteger_safe, Hall, elem_of_cons; by left).
  assert (isSafeInteger oldest = true) as Holdest
    by (by apply isSafePositiveInteger_safe, Hall, last_Some_elem_of).
  pose proof (validFor_valid _ _ Hvalid) as Hv. rewrite Hg in Hv.
  pose proof Hv as [Hsafe Hw%areSortedFrom_None]%validCursors_Some.
  assert (covers (addToSortedDisjointSafeIntegerIntervals (witnessedPostIds c)
                    (oldest, newest)).2 g) as Hcov
    by (apply add_covers; [done..|by right]).
  destruct (add_partition (witnessedPostIds c) oldest newest Hw Holdest Hnewest Hon)
    as (Hkept & _ & _).
  specialize (Hkept a b Hab (or_intror Hna)).
  destruct (add_reaches_goal g _ oldest newest Hv Hon Holdest Hnewest Hcov)
    as (nhi & post & Hadd & Hgn & Hpost & _).
  rewrite Hadd in Hkept. cbn [snd] in Hkept.
  apply elem_of_cons in Hkept as [[= -> ->]|Hleft]; [lia|].
  rewrite (runReconcile_merges _ _ _ g) by (try done; intros; lia).
  rewrite (observedInterval_plain (Tagged e tag ts) _ _ _ _ oldest) by done.
  unfold reconcileWitnessed. destruct (Z.leb_spec newest oldest) as [|_]; [lia|].
  rewrite Hadd. unfold indexOfIntervalContainingValue. cbn [indexLoop].
  destruct (Z.ltb_spec nhi g) as [|_]; [lia|].
  destruct (Z.ltb_spec g oldest) as [|_]; [lia|].
  cbn [Z.eqb andb negb adjacencyHints].
  unfold taggedContext. cbn [updateAdjacencyHints saveCursors].
  unfold taggedUpdateAdjacencyHints. cbn [witnessedPostIds goalPostId adjacencyHints].
  destruct post as [|i post']; [by apply elem_of_nil in Hleft|].
  cbn [length Nat.eqb]. rewrite Hlast, Ht.
  unfold saveAndReturn, taggedSaveCursors.
  cbn [witnessedPostIds goalPostId adjacencyHints].
  assert (validTaggedCursors (Some nhi) (i :: post')
            (mapSet (adjacencyHints c) t oldest) = false) as ->; [|by eexists].
  unfold validTaggedCursors. destruct (negb _); [done|]. cbn [length Nat.eqb].
  destruct (forallb _ _) eqn:Hforall; [|done].
  rewrite forallb_forall in Hforall.
  specialize (Hforall (t, oldest)). rewrite <-list_elem_of_In in Hforall.
  specialize (Hforall (mapSet_elem _ _ _)).
  unfold validHint in Hforall. rewrite Ht, (Hall oldest) in Hforall
    by (by apply last_Some_elem_of).
  cbn [andb negb] in Hforall.
  rewrite index_not_covered in Hforall; [done|].
  intros (x & y & Hxy & Hx).
  pose proof (areSortedFrom_above _ _ _ _ Hpost Hxy). lia.
Qed.

Lemma tagged_reached_with_interval_left_throws_witness :
  exists c',
    runReconcile (taggedContext true "Zm9v" (Some 0)) (Some 1500000000)
      (MkCursors (Some 100) [(103, 105); (120, 130)] []) [103; 102; 101; 100; 99] false ∅
    = (Throw "Attempted to save invalid cursors", c', ∅).
Proof.
  apply (tagged_reached_with_interval_left_throws true "Zm9v" (Some 0) 1500000000
           (MkCursors (Some 100) [(103, 105); (120, 130)] []) [103; 102; 101; 100; 99]
           100 103 99 [102; 101; 100; 99] false ∅ 120 130);
    try reflexivity; try lia; try discriminate.
  apply elem_of_cons. right. apply elem_of_cons. by left.
Defined.

(** A page with a single post that is not older than the goal post (on a
    later pass: any single post): the observed interval is degenerate and
    [reconcile] throws, with the cursors and the storage untouched. *)
Theorem single_post_batch_throws (where_ : location) (ctx : context)
    (nextPageTimestamp : option Z) (c : Cursors) (g p : Z) (initial : bool)
    (st : storage) :
  initContext where_ = Some ctx ->
  validCursors (goalPostId c) (witnessedPostIds c) = true ->
  goalPostId c = Some g ->
  (initial = true -> g <= p /\ isFirstPage ctx = true) ->
  runReconcile ctx nextPageTimestamp c [p] initial st
  = (Throw "Invariants broken", c, st).
Proof.
  intros Hctx Hvalid Hg Hinit.
  rewrite Hg in Hvalid. apply validCursors_Some in Hvalid as [Hsafe _].
  rewrite (runReconcile_merges _ _ _ g) by (try done; intros Hi; by apply Hinit).
  rewrite (observedInterval_plain where_ _ _ _ _ p); [|done|done|].
  - unfold reconcileWitnessed. by rewrite Z.leb_refl.
  - intros Hi. by apply Hinit.
Qed.

Lemma single_post_batch_throws_witness :
  runReconcile (dashboardContext true None None) None (MkCursors (Some 100) [] [])
    [100] true ∅
  = (Throw "Invariants broken", MkCursors (Some 100) [] [], ∅).
Proof.
  apply (single_post_batch_throws (Dashboard true None None)
           (dashboardContext true None None) None (MkCursors (Some 100) [] []) 100 100 true ∅);
    try reflexivity.
  intros _. split; [lia|reflexivity].
Defined.

(** * The interval set as a set of unit segments *)

Lemma add_valid l lo hi :
  areSortedDisjointSafeIntegerIntervals l = true ->
  isSafeInteger lo = true -> isSafeInteger hi = true -> lo < hi ->
  areSortedDisjointSafeIntegerIntervals
    (addToSortedDisjointSafeIntegerIntervals l (lo, hi)).2 = true.
Proof.
  intros Hs Hlo Hhi Hlt.
  destruct (add_shape None l lo hi Hs Hlt) as
    (pre & mid & post & nlo & nhi & _ & -> & _ & _ & _ & _ & _ & _ & Hsorted).
  by apply Hsorted.
Qed.

(** The merged set covers the unit segments that the old set covered and
    those of the new interval. *)
Lemma add_coversSegment l lo hi x :
  areSortedDisjointSafeIntegerIntervals l = true -> lo < hi ->
  coversSegment (addToSortedDisjointSafeIntegerIntervals l (lo, hi)).2 x <->
  coversSegment l x \/ lo <= x < hi.
Proof.
  intros Hs Hlt.
  destruct (add_shape None l lo hi Hs Hlt) as
    (pre & mid & post & nlo & nhi & Hl & -> & Hpre & Hle1 & Hle2 & Hmid
     & Hfirst & Hlast & _).
  unfold coversSegment. rewrite Hl. split.
  - intros (a & b & Hin & Hx).
    apply elem_of_app in Hin as [Hin|[Heq|Hin]%elem_of_cons].
    + left. exists a, b. split; [|done]. apply elem_of_app. by left.
    + inversion Heq; subst a b.
      destruct (Z.lt_ge_cases x lo) as [Hxlo|Hxlo].
      * destruct Hfirst as [->|(b & Hin & Hb)]; [lia|].
        left. exists nlo, b. split; [|lia].
        apply elem_of_app. right. apply elem_of_app. by left.
      * destruct (Z.lt_ge_cases x hi) as [Hxhi|Hxhi]; [right; lia|].
        destruct Hlast as [->|(a & Hin & Ha)]; [lia|].
        left. exists a, nhi. split; [|lia].
        apply elem_of_app. right. apply elem_of_app. by left.
    + left. exists a, b. split; [|done].
      apply elem_of_app. right. apply elem_of_app. by right.
  - intros [(a & b & Hin & Hx)|Hx].
    + apply elem_of_app in Hin as [Hin|[Hin|Hin]%elem_of_app].
      * exists a, b. split; [|done]. apply elem_of_app. by left.
      * destruct (Hmid _ _ Hin). exists nlo, nhi. split; [|lia].
        apply elem_of_app. right. apply elem_of_cons. by left.
      * exists a, b. split; [|done].
        apply elem_of_app. right. apply elem_of_cons. by right.
    + exists nlo, nhi. split; [|lia].
      apply elem_of_app. right. apply elem_of_cons. by left.
Qed.

(** A sorted set is determined by the unit segments it covers. *)
Lemma coversSegment_unique l1 : forall prev l2,
  areSortedFrom prev l1 = true -> areSortedFrom prev l2 = true ->
  (forall x, coversSegment l1 x <-> coversSegment l2 x) -> l1 = l2.
Proof.
  assert (forall p l a b x, areSortedFrom (Some p) l = true ->
            coversSegment ((a, b) :: l) x -> a < b -> b <= p ->
            a <= x < b \/ (p < x /\ coversSegment l x)) as Hsplit.
  { intros p l a b x Hl (c & d & [[= -> ->]|Hin]%elem_of_cons & Hx) Hab Hbp; [by left|].
    right. pose proof (areSortedFrom_above _ _ _ _ Hl Hin). split; [lia|].
    by exists c, d. }
  assert (forall prev l a b, areSortedFrom prev ((a, b) :: l) = true ->
            forall x, coversSegment ((a, b) :: l) x -> a <= x) as Hmin.
  { intros prev l a b Hs x (c & d & [[= -> ->]|Hin]%elem_of_cons & Hx); [lia|].
    apply areSortedFrom_cons in Hs as (_ & _ & _ & Hab & Hl).
    pose proof (areSortedFrom_above _ _ _ _ Hl Hin). lia. }
  assert (forall (l : list interval) a b, a < b -> coversSegment ((a, b) :: l) a) as Hfirst.
  { intros l a b Hab. exists a, b. split; [apply elem_of_cons; by left|lia]. }
  induction l1 as [|[a1 b1] rest1 IH]; intros prev [|[a2 b2] rest2] Hs1 Hs2 Hsame.
  - done.
  - apply areSortedFrom_cons in Hs2 as (_ & _ & _ & Hab & _).
    destruct (proj2 (Hsame a2) (Hfirst _ _ _ Hab)) as (? & ? & Hin & _).
    by apply elem_of_nil in Hin.
  - apply areSortedFrom_cons in Hs1 as (_ & _ & _ & Hab & _).
    destruct (proj1 (Hsame a1) (Hfirst _ _ _ Hab)) as (? & ? & Hin & _).
    by apply elem_of_nil in Hin.
  - pose proof Hs1 as (_ & _ & _ & Hab1 & Hr1)%areSortedFrom_cons.
    pose proof Hs2 as (_ & _ & _ & Hab2 & Hr2)%areSortedFrom_cons.
    assert (a1 = a2) as <-.
    { pose proof (Hmin _ _ _ _ Hs2 a1 (proj1 (Hsame a1) (Hfirst _ _ _ Hab1))).
      pose proof (Hmin _ _ _ _ Hs1 a2 (proj2 (Hsame a2) (Hfirst _ _ _ Hab2))). lia. }
    assert (forall (l l' : list interval) b b',
              areSortedFrom (Some b) l = true -> areSortedFrom (Some b') l' = true ->
              a1 < b -> a1 < b' ->
              (forall x, coversSegment ((a1, b) :: l) x -> coversSegment ((a1, b') :: l') x) ->
              b <= b') as Hend.
    { intros l l' b b' Hl Hl' Hb Hb' Hsub.
      destruct (Z.le_gt_cases b b') as [|Hgt]; [done|]. exfalso.
      assert (coversSegment ((a1, b) :: l) b') as Hc
        by (exists a1, b; split; [apply elem_of_cons; by left|lia]).
      apply Hsub in Hc.
      destruct (Hsplit b' l' a1 b' b' Hl' Hc) as [?|[? _]]; lia. }
    assert (b1 = b2) as <-.
    { pose proof (Hend rest1 rest2 b1 b2 Hr1 Hr2 Hab1 Hab2 (fun x => proj1 (Hsame x))).
      pose proof (Hend rest2 rest1 b2 b1 Hr2 Hr1 Hab2 Hab1 (fun x => proj2 (Hsame x))).
      lia. }
    f_equal. apply (IH (Some b1)); try done.
    intros x. split; intros Hc.
    + assert (b1 < x) as Hx.
      { destruct Hc as (c & d & Hin & Hcx).
        pose proof (areSortedFrom_above _ _ _ _ Hr1 Hin). lia. }
      assert (coversSegment ((a1, b1) :: rest1) x) as Hc'.
      { destruct Hc as (c & d & Hin & Hcx). exists c, d.
        split; [apply elem_of_cons; by right|done]. }
      apply Hsame in Hc'.
      destruct (Hsplit b1 rest2 a1 b1 x Hr2 Hc') as [?|[_ ?]]; [done|lia|lia|done].
    + assert (b1 < x) as Hx.
      { destruct Hc as (c & d & Hin & Hcx).
        pose proof (areSortedFrom_above _ _ _ _ Hr2 Hin). lia. }
      assert (coversSegment ((a1, b1) :: rest2) x) as Hc'.
      { destruct Hc as (c & d & Hin & Hcx). exists c, d.
        split; [apply elem_of_cons; by right|done]. }
      apply Hsame in Hc'.
      destruct (Hsplit b1 rest1 a1 b1 x Hr1 Hc') as [?|[_ ?]]; [done|lia|lia|done].
Qed.

(** The order of two insertions does not matter: either way the same set
    comes out. *)
Theorem insert_commutes (S : list interval) (lo1 hi1 lo2 hi2 : Z) :
  areSortedDisjointSafeIntegerIntervals S = true ->
  isSafeInteger lo1 = true -> isSafeInteger hi1 = true -> lo1 < hi1 ->
  isSafeInteger lo2 = true -> isSafeInteger hi2 = true -> lo2 < hi2 ->
  (addToSortedDisjointSafeIntegerIntervals
     (addToSortedDisjointSafeIntegerIntervals S (lo1, hi1)).2 (lo2, hi2)).2
  = (addToSortedDisjointSafeIntegerIntervals
       (addToSortedDisjointSafeIntegerIntervals S (lo2, hi2)).2 (lo1, hi1)).2.
Proof.
  intros Hs Hlo1 Hhi1 Hlt1 Hlo2 Hhi2 Hlt2.
  pose proof (add_valid S lo1 hi1 Hs Hlo1 Hhi1 Hlt1) as Hs1.
  pose proof (add_valid S lo2 hi2 Hs Hlo2 Hhi2 Hlt2) as Hs2.
  apply (coversSegment_unique _ None); try by apply add_valid.
  intros x. rewrite !add_coversSegment by done. tauto.
Qed.

Lemma insert_commutes_witness :
  (addToSortedDisjointSafeIntegerIntervals
     (addToSortedDisjointSafeIntegerIntervals [(1, 2); (9, 12)] (2, 4)).2 (4, 9)).2
  = (addToSortedDisjointSafeIntegerIntervals
       (addToSortedDisjointSafeIntegerIntervals [(1, 2); (9, 12)] (4, 9)).2 (2, 4)).2.
Proof.
  apply (insert_commutes [(1, 2); (9, 12)] 2 4 4 9); try reflexivity; lia.
Defined.

(** Two batches that overlap or touch count as one: inserting [[lo, m1]] and
    then [[m2, hi]] with [m2 <= m1] gives the set that inserting [[lo, hi]]
    gives. *)
Theorem insert_overlapping_batches_as_one (S : list interval) (lo m1 m2 hi : Z) :
  areSortedDisjointSafeIntegerIntervals S = true ->
  isSafeInteger lo = true -> isSafeInteger m1 = true ->
  isSafeInteger m2 = true -> isSafeInteger hi = true ->
  lo < m1 -> m2 < hi -> m2 <= m1 -> lo <= m2 -> m1 <= hi ->
  (addToSortedDisjointSafeIntegerIntervals
     (addToSortedDisjointSafeIntegerIntervals S (lo, m1)).2 (m2, hi)).2
  = (addToSortedDisjointSafeIntegerIntervals S (lo, hi)).2.
Proof.
  intros Hs Hlo Hm1 Hm2 Hhi Hlt1 Hlt2 Hov Hlm Hmh.
  pose proof (add_valid S lo m1 Hs Hlo Hm1 Hlt1) as Hs1.
  apply (coversSegment_unique _ None); try apply add_valid; try done; try lia.
  intros x. rewrite !add_coversSegment by (done || lia).
  split; [intros [[?|?]|?]|intros [?|?]]; try tauto; try (right; lia).
  destruct (Z.lt_ge_cases x m1); [left; right; lia|right; lia].
Qed.

Lemma insert_overlapping_batches_as_one_witness :
  (addToSortedDisjointSafeIntegerIntervals
     (addToSortedDisjointSafeIntegerIntervals [(120, 130)] (99, 103)).2 (103, 105)).2
  = (addToSortedDisjointSafeIntegerIntervals [(120, 130)] (99, 105)).2.
Proof.
  apply (insert_overlapping_batches_as_one [(120, 130)] 99 103 103 105);
    try reflexivity; lia.
Defined.

(** * The separator line in the page *)

Lemma insertBeforePost_shape line postId l l' :
  insertBeforePost line postId l = Some l' ->
  exists pre c post,
    l = pre ++ c :: post /\ l' = pre ++ line :: c :: post /\
    isContainerOfPost postId c = true /\
    forallb (fun c => negb (isContainerOfPost postId c)) pre = true.
Proof.
  revert l'. induction l as [|c rest IH]; intros l' Hins; [done|].
  simpl in Hins. destruct (isContainerOfPost postId c) eqn:Hc.
  - inversion Hins; subst l'. by exists [], c, rest.
  - destruct (insertBeforePost line postId rest) as [r|] eqn:Hr; [|done].
    inversion Hins; subst l'.
    destruct (IH r eq_refl) as (pre & c' & post & -> & -> & Hc' & Hpre).
    exists (c :: pre), c', post. split_and!; try done.
    simpl. by rewrite Hc.
Qed.

Lemma insertBeforePost_None line postId l :
  insertBeforePost line postId l = None <->
  forallb (fun c => negb (isContainerOfPost postId c)) l = true.
Proof.
  induction l as [|c rest IH]; [done|].
  simpl. destruct (isContainerOfPost postId c); simpl; [done|].
  rewrite <- IH. by destruct (insertBeforePost line postId rest).
Qed.

Lemma filter_no_line (l : list postsChild) :
  existsb isSeparatorLine l = false ->
  filter (fun c => isSeparatorLine c = false) l = l.
Proof.
  induction l as [|c rest IH]; [done|].
  simpl. intros [Hc Hrest]%orb_false_iff.
  rewrite filter_cons. destruct (decide (isSeparatorLine c = false)); [|done].
  by rewrite IH.
Qed.

(** [insertSeparatorBeforePost] goes through exactly when the document has no
    separator line yet and [#posts] has a container of the post.  The line
    then stands right before the first such container, nothing else has
    changed, and any further insertion throws "Separator already exists".
    When it throws, the document is as it was. *)
Theorem separator_line_inserted_once (bold : bool) (postId : Z) (d : document) :
  let r := insertSeparatorBeforePost bold postId d in
  (r.1 = Normal tt <->
     separatorExists d = false /\
     existsb (isContainerOfPost postId) (postsChildren d) = true) /\
  (r.1 = Normal tt ->
     (exists pre c post,
        postsChildren d = pre ++ c :: post /\
        postsChildren r.2 = pre ++ SeparatorLine bold :: c :: post /\
        isContainerOfPost postId c = true /\
        forallb (fun c => negb (isContainerOfPost postId c)) pre = true) /\
     lineOutsidePosts r.2 = lineOutsidePosts d /\
     forall bold' postId',
       insertSeparatorBeforePost bold' postId' r.2
       = (Throw "Separator already exists", r.2)) /\
  (r.1 <> Normal tt -> r.2 = d).
Proof.
  unfold insertSeparatorBeforePost.
  destruct (separatorExists d) eqn:Hex; simpl.
  { split_and!; [split; [done|by intros [? _]]|done|done]. }
  destruct (insertBeforePost (SeparatorLine bold) postId (postsChildren d))
    as [children|] eqn:Hins; simpl.
  - destruct (insertBeforePost_shape _ _ _ _ Hins) as (pre & c & post & Hd & -> & Hc & Hpre).
    split_and!; [|intros _; split_and!|done].
    + split; [intros _|done]. split; [done|].
      rewrite Hd, existsb_app. simpl. rewrite Hc. by rewrite orb_true_r.
    + by exists pre, c, post.
    + done.
    + intros bold' postId'. unfold separatorExists. simpl.
      rewrite existsb_app. simpl. by rewrite orb_true_r.
  - apply insertBeforePost_None in Hins.
    split_and!; [|done|done].
    split; [done|]. intros [_ Hsome].
    apply existsb_exists in Hsome as (c & Hin & Hc).
    rewrite forallb_forall in Hins. specialize (Hins c Hin). by rewrite Hc in Hins.
Qed.

(** [destroy] takes the line out again: after a successful
    [insertSeparatorBeforePost] on a document with no line outside [#posts],
    it gives back the document as it was, and a new insertion before the same
    post goes through. *)
Theorem destroy_undoes_insert (bold : bool) (postId : Z) (d d' : document) :
  insertSeparatorBeforePost bold postId d = (Normal tt, d') ->
  destroy d' = d /\
  forall bold', (insertSeparatorBeforePost bold' postId (destroy d')).1 = Normal tt.
Proof.
  unfold insertSeparatorBeforePost.
  destruct (separatorExists d) eqn:Hex; [done|].
  destruct (insertBeforePost (SeparatorLine bold) postId (postsChildren d))
    as [children|] eqn:Hins; [|done].
  intros [= <-].
  apply orb_false_iff in Hex as [Hlines Hout].
  destruct (insertBeforePost_shape _ _ _ _ Hins) as (pre & c & post & Hd & -> & Hc & Hpre).
  assert (destroy (MkDocument (pre ++ SeparatorLine bold :: c :: post) (lineOutsidePosts d)) = d)
    as Hback.
  { unfold destroy. simpl. destruct d as [children out]. simpl in *. subst children out.
    f_equal. rewrite filter_app, filter_cons. simpl.
    rewrite <- filter_app. by apply filter_no_line. }
  split; [done|]. intros bold'. rewrite Hback.
  unfold separatorExists. rewrite Hlines, Hout. simpl.
  destruct (insertBeforePost (SeparatorLine bold') postId (postsChildren d)) eqn:Hins'; [done|].
  apply insertBeforePost_None in Hins'. rewrite Hd, forallb_app in Hins'. simpl in Hins'.
  rewrite Hc in Hins'. simpl in Hins'. by rewrite andb_false_r in Hins'.
Qed.

Lemma destroy_undoes_insert_witness :
  destroy (MkDocument [OtherChild; PostContainer "post_120"; SeparatorLine true;
                       PostContainer "post_100"] false)
  = MkDocument [OtherChild; PostContainer "post_120"; PostContainer "post_100"] false /\
  forall bold', (insertSeparatorBeforePost bold' 100
                   (destroy (MkDocument [OtherChild; PostContainer "post_120";
                                         SeparatorLine true; PostContainer "post_100"] false))).1
                = Normal tt.
Proof.
  apply (destroy_undoes_insert true 100
           (MkDocument [OtherChild; PostContainer "post_120"; PostContainer "post_100"] false)).
  vm_compute. reflexivity.
Defined.
